(** * EventDispatcher: a shallow embedding of the publish/subscribe dispatcher

    The development follows the latest design of the library
    (EventDispatcher.ts with Set-backed buckets, Event.ts, TypeGuards.ts):
    - JS objects used as dictionaries ([callbacks], [lastEvents], event
      objects, payloads) are finite maps keyed by strings; keys are own
      properties;
    - a [Set] of callbacks is a list in insertion order whose [add] skips
      a member already present;
    - callbacks are references: a user function is named by a number and its
      behaviour is looked up in a function table, a closure created by [one]
      carries the serial number of its allocation;
    - every method runs in a state-and-exception monad over the dispatcher,
      the closure allocator and a log of callback invocations; recursion
      through callbacks is bounded by a call-depth budget. *)

From stdpp Require Import gmap strings list fin_maps.

Open Scope string_scope.
Open Scope list_scope.
Open Scope nat_scope.

(** ** Values and objects *)

Inductive value :=
| VUndefined
| VNull
| VBool (b : bool)
| VNum (n : Z)
| VStr (s : string).

#[global] Instance value_eq_dec : EqDecision value.
Proof. solve_decision. Defined.

(** [Record<string, any>]: an object used as a dictionary. *)
Abbreviation object := (gmap string value).

(** ** TypeGuards.ts and the validity rules *)

(** A [RegExp] is used only through [test]; patterns carry no global or
    sticky flag, so [test] is a function of the candidate alone. *)
Record RegExp := mkRegExp { test : string → bool }.

(** An element of [validEventTypes : (string | RegExp)[]]. *)
Inductive rule :=
| Text (s : string)
| Pattern (r : RegExp).

Definition isRegexp (validEvent : rule) : bool :=
  match validEvent with Pattern _ => true | Text _ => false end.

(** The argument of validation: [string | string[]]. *)
Inductive eventTypes :=
| Single (eventType : string)
| Many (types : list string).

Definition isArray (v : eventTypes) : bool :=
  match v with Many _ => true | Single _ => false end.

Definition asArray (v : eventTypes) : list string :=
  match v with Many l => l | Single s => [s] end.

(** The body of the inner loop of [isValidEvent]: the test of one candidate
    against one rule. *)
Definition isValid (validEvent : rule) (eventType : string) : bool :=
  match validEvent with
  | Pattern r => test r eventType
  | Text s => bool_decide (eventType = s)
  end.

(** The inner [for (let validEvent of this.validEventTypes)] loop.  [None] is
    the early [return true]; [Some c] is the value of [validEventCount] when
    the loop falls through. *)
Fixpoint rulesLoop (len : nat) (eventType : string) (validEventTypes : list rule)
    (validEventCount : nat) : option nat :=
  match validEventTypes with
  | [] => Some validEventCount
  | validEvent :: rest =>
      if isValid validEvent eventType then
        let validEventCount := S validEventCount in
        if Nat.eqb validEventCount len then None
        else rulesLoop len eventType rest validEventCount
      else rulesLoop len eventType rest validEventCount
  end.

(** The outer [for (let eventType of eventTypes)] loop. *)
Fixpoint typesLoop (len : nat) (types : list string) (validEventTypes : list rule)
    (validEventCount : nat) : bool :=
  match types with
  | [] => false
  | eventType :: rest =>
      match rulesLoop len eventType validEventTypes validEventCount with
      | None => true
      | Some validEventCount => typesLoop len rest validEventTypes validEventCount
      end
  end.

Definition isValidEvent (validEventTypes : list rule) (eventType : eventTypes) : bool :=
  let types := asArray eventType in
  typesLoop (length types) types validEventTypes 0.

(** What the documentation of [isValidEvent] asks of one candidate: some rule
    of the ruleset accepts it. *)
Definition satisfies (validEventTypes : list rule) (eventType : string) : bool :=
  existsb (λ validEvent, isValid validEvent eventType) validEventTypes.

(** ** Event.ts *)

Record EventInit := mkEventInit { properties : option object }.

Definition defaultEventInit : EventInit := {| properties := Some ∅ |}.

(** [{ ...defaultEventInit, ...options }]. *)
Definition mergeOptions (options : option EventInit) : EventInit :=
  {| properties :=
       match options ≫= properties with
       | Some props => Some props
       | None => properties defaultEventInit
       end |}.

(** [defineProperties]: [this[property] = properties[property]] for every
    enumerable key. *)
Definition defineProperties (this : object) (props : object) : object :=
  map_fold (λ property v (acc : object), <[property := v]> acc) this props.

(** [new Event(type, options)]. *)
Definition Event (type : string) (options : option EventInit) : object :=
  let mergedOptions := mergeOptions options in
  let this : object := <["type" := VStr type]> ∅ in
  match properties mergedOptions with
  | Some props => defineProperties this props
  | None => this
  end.

(** [EventInterface = { readonly type: string }]: any object that carries a
    string under the key [type]. *)
Record EventInterface := mkEventInterface {
  type : string;
  fields : object
}.

Definition asObject (e : EventInterface) : object :=
  <["type" := VStr (type e)]> (fields e).

(** ** Callbacks, contexts and the client language *)

(** The receiver of a callback: the dispatcher itself ([this]) or another
    object, named by a number. *)
Inductive context :=
| This
| Obj (id : nat).

#[global] Instance context_eq_dec : EqDecision context.
Proof. solve_decision. Defined.

(** A callback is a function reference.  [Fn id] is a function of the client,
    [OnetimeCallback serial eventType callback] is the arrow function that
    [one] allocates around [callback]. *)
Inductive callback :=
| Fn (id : nat)
| OnetimeCallback (serial : nat) (eventType : string) (callback : callback).

#[global] Instance callback_eq_dec : EqDecision callback.
Proof. solve_decision. Defined.

(** [options?: { triggerLastEvent?: boolean }]. *)
Record OnOptions := mkOnOptions { opt_triggerLastEvent : option bool }.

(** The capability returned by [on]: the closure
    [() => { this.off(eventType, callback) }]. *)
Record OffEvent := mkOffEvent {
  off_eventType : string;
  off_callback : callback
}.

(** What client code (a script, or the body of a callback) may do with the
    dispatcher that runs it. *)
Inductive command :=
| On (eventType : string) (cb : callback) (options : option OnOptions)
| One (eventType : string) (cb : callback) (options : option OnOptions)
| Off (eventType : string) (cb : option callback)
| Trigger (eventType : string) (args : option object)
| TriggerObject (eventObject : EventInterface)
| Unsubscribe (off : OffEvent)
| SetCallbackContext (ctx : context)
| Disable
| Enable
| Clear
| RemoveLastEventObjectOf (eventType : string)
| Throw (v : value).

(** One entry of the invocation log: [callee.call(receiver, argument)]. *)
Record call_record := mkCall {
  callee : callback;
  receiver : context;
  argument : object
}.

#[global] Instance call_record_eq_dec : EqDecision call_record.
Proof. solve_decision. Defined.

(** ** The dispatcher *)

Record EventDispatcher := mkEventDispatcher {
  validEventTypes : list rule;
  callbacks : gmap string (list callback);
  lastEvents : gmap string object;
  disabled : bool;
  callbackContext : context;
  triggerLastEvent : bool
}.

(** Constructor options: [{ validEventTypes?, triggerLastEvent? }]. *)
Record Options := mkOptions {
  o_validEventTypes : option (list rule);
  o_triggerLastEvent : option bool
}.

Definition matchAnything : RegExp := {| test := λ _, true |}.

(** [constructor({ validEventTypes = [/.*/], triggerLastEvent = false } = {})]. *)
Definition new_EventDispatcher (options : option Options) : EventDispatcher :=
  let o := default {| o_validEventTypes := None; o_triggerLastEvent := None |} options in
  {| validEventTypes := default [Pattern matchAnything] (o_validEventTypes o);
     callbacks := ∅;
     lastEvents := ∅;
     disabled := false;
     callbackContext := This;
     triggerLastEvent := default false (o_triggerLastEvent o) |}.

(** [Set.prototype.add] and [Set.prototype.delete] on a bucket. *)
Definition set_add (cb : callback) (s : list callback) : list callback :=
  if decide (cb ∈ s) then s else s ++ [cb].

Definition set_delete (cb : callback) (s : list callback) : list callback :=
  filter (λ c, c ≠ cb) s.

(** ** The machine: dispatcher, closure allocator, invocation log *)

Record machine := mkMachine {
  self : EventDispatcher;
  allocated : nat;
  calls : list call_record
}.

Inductive error :=
| InvalidEventType (eventType : eventTypes) (validEvents : list rule)
| Thrown (v : value).

Inductive outcome (A : Type) :=
| Returned (a : A) (m : machine)
| Threw (e : error) (m : machine)
| OutOfFuel.

Arguments Returned {A} a m.
Arguments Threw {A} e m.
Arguments OutOfFuel {A}.

Definition M (A : Type) : Type := machine → outcome A.

Definition ret {A} (a : A) : M A := λ m, Returned a m.

Definition bind {A B} (c : M A) (k : A → M B) : M B :=
  λ m, match c m with
       | Returned a m' => k a m'
       | Threw e m' => Threw e m'
       | OutOfFuel => OutOfFuel
       end.

Definition throw {A} (e : error) : M A := λ m, Threw e m.

Definition get_self : M EventDispatcher := λ m, Returned (self m) m.

Definition modify_self (f : EventDispatcher → EventDispatcher) : M unit :=
  λ m, Returned tt {| self := f (self m); allocated := allocated m; calls := calls m |}.

Notation "'let!' x ':=' c 'in' k" := (bind c (λ x, k))
  (at level 10, x name, c at level 100, k at level 200).
Notation "'do!' c 'in' k" := (bind c (λ _, k))
  (at level 10, c at level 100, k at level 200).

(** Field updates of the dispatcher. *)
Definition set_callbacks (f : gmap string (list callback) → gmap string (list callback))
    (d : EventDispatcher) : EventDispatcher :=
  {| validEventTypes := validEventTypes d; callbacks := f (callbacks d);
     lastEvents := lastEvents d; disabled := disabled d;
     callbackContext := callbackContext d; triggerLastEvent := triggerLastEvent d |}.

Definition set_lastEvents (f : gmap string object → gmap string object)
    (d : EventDispatcher) : EventDispatcher :=
  {| validEventTypes := validEventTypes d; callbacks := callbacks d;
     lastEvents := f (lastEvents d); disabled := disabled d;
     callbackContext := callbackContext d; triggerLastEvent := triggerLastEvent d |}.

Definition set_disabled (b : bool) (d : EventDispatcher) : EventDispatcher :=
  {| validEventTypes := validEventTypes d; callbacks := callbacks d;
     lastEvents := lastEvents d; disabled := b;
     callbackContext := callbackContext d; triggerLastEvent := triggerLastEvent d |}.

Definition set_callbackContext (c : context) (d : EventDispatcher) : EventDispatcher :=
  {| validEventTypes := validEventTypes d; callbacks := callbacks d;
     lastEvents := lastEvents d; disabled := disabled d;
     callbackContext := c; triggerLastEvent := triggerLastEvent d |}.

(** [eventType in this.callbacks]. *)
Definition hasCallbacks (eventType : string) (d : EventDispatcher) : bool :=
  bool_decide (is_Some (callbacks d !! eventType)).

(** [this.callbacks[eventType]]; the bucket of a missing key is [undefined],
    on which nothing can be iterated. *)
Definition callbacksForEvent (eventType : string) (d : EventDispatcher) : list callback :=
  default [] (callbacks d !! eventType).

Definition getLastEventObjectOf (eventType : string) (d : EventDispatcher) : option object :=
  lastEvents d !! eventType.

(** [this.callbackContext || this]: the context is an object, never falsy. *)
Definition currentContext (d : EventDispatcher) : context := callbackContext d.

Definition validateEventType (eventType : eventTypes) : M unit :=
  let! d := get_self in
  if isValidEvent (validEventTypes d) eventType then ret tt
  else throw (InvalidEventType eventType (validEventTypes d)).

Definition off (eventType : string) (cb : option callback) : M unit :=
  do! validateEventType (Single eventType) in
  let! d := get_self in
  if negb (hasCallbacks eventType d) then ret tt
  else match cb with
       | None => modify_self (set_callbacks (delete eventType))
       | Some cb =>
           modify_self (set_callbacks (λ cbs,
             <[eventType := set_delete cb (default [] (cbs !! eventType))]> cbs))
       end.

Definition setCallbackContext (ctx : context) : M unit :=
  modify_self (set_callbackContext ctx).

Definition disable : M unit := modify_self (set_disabled true).
Definition enable : M unit := modify_self (set_disabled false).
Definition clear : M unit := modify_self (set_callbacks (λ _, ∅)).

Definition removeLastEventObjectOf (eventType : string) : M (option object) :=
  let! d := get_self in
  match lastEvents d !! eventType with
  | Some lastEvent =>
      do! modify_self (set_lastEvents (delete eventType)) in ret (Some lastEvent)
  | None => ret None
  end.

(** Allocation of the arrow function of [one]. *)
Definition new_closure (eventType : string) (cb : callback) : M callback :=
  λ m, Returned (OnetimeCallback (allocated m) eventType cb)
         {| self := self m; allocated := S (allocated m); calls := calls m |}.

Definition record_call (c : call_record) : M unit :=
  λ m, Returned tt {| self := self m; allocated := allocated m; calls := calls m ++ [c] |}.

Section Methods.
(** [invoke cb ctx e] is [cb.call(ctx, e)]. *)
Variable invoke : callback → context → object → M value.

Definition on (eventType : string) (cb : callback) (options : option OnOptions)
    : M OffEvent :=
  do! validateEventType (Single eventType) in
  let! d := get_self in
  let triggerLastEvent :=
    default false (options ≫= opt_triggerLastEvent) || triggerLastEvent d in
  do! (if negb (hasCallbacks eventType d)
       then modify_self (set_callbacks (<[eventType := []]>))
       else ret tt) in
  do! modify_self (set_callbacks (λ cbs,
        <[eventType := set_add cb (default [] (cbs !! eventType))]> cbs)) in
  do! (if triggerLastEvent then
         let! d := get_self in
         match getLastEventObjectOf eventType d with
         | Some lastEventObject =>
             do! invoke cb (currentContext d) lastEventObject in ret tt
         | None => ret tt
         end
       else ret tt) in
  ret {| off_eventType := eventType; off_callback := cb |}.

Definition one (eventType : string) (cb : callback) (options : option OnOptions)
    : M OffEvent :=
  do! validateEventType (Single eventType) in
  let! onetimeCallback := new_closure eventType cb in
  on eventType onetimeCallback options.

(** [Array.from(callbacks).map(callback => callback.call(ctx, eventObject))]
    over the snapshot [snapshot]. *)
Fixpoint mapCallbacks (snapshot : list callback) (eventObject : object)
    : M (list value) :=
  match snapshot with
  | [] => ret []
  | cb :: rest =>
      let! d := get_self in
      let! response := invoke cb (currentContext d) eventObject in
      let! responses := mapCallbacks rest eventObject in
      ret (response :: responses)
  end.

(** [trigger(eventTypeOrEventObject, args?)]; [inl] is an event type,
    [inr] a pre-built event object ([isEventObject]). *)
Definition trigger (eventTypeOrEventObject : string + EventInterface)
    (args : option object) : M (option (list value)) :=
  let eventObject :=
    match eventTypeOrEventObject with
    | inr e => asObject e
    | inl t => Event t (Some {| properties := Some (default ∅ args) |})
    end in
  let eventType :=
    match eventTypeOrEventObject with
    | inr e => type e
    | inl t => t
    end in
  do! validateEventType (Single eventType) in
  do! modify_self (set_lastEvents (<[eventType := eventObject]>)) in
  let! d := get_self in
  if disabled d || negb (hasCallbacks eventType d) then ret None
  else
    let callbacks := callbacksForEvent eventType d in
    let! responses := mapCallbacks callbacks eventObject in
    ret (Some responses).

(** One statement of client code. *)
Definition exec (c : command) : M unit :=
  match c with
  | On eventType cb options => do! on eventType cb options in ret tt
  | One eventType cb options => do! one eventType cb options in ret tt
  | Off eventType cb => off eventType cb
  | Trigger eventType args => do! trigger (inl eventType) args in ret tt
  | TriggerObject e => do! trigger (inr e) None in ret tt
  | Unsubscribe o => off (off_eventType o) (Some (off_callback o))
  | SetCallbackContext ctx => setCallbackContext ctx
  | Disable => disable
  | Enable => enable
  | Clear => clear
  | RemoveLastEventObjectOf eventType => do! removeLastEventObjectOf eventType in ret tt
  | Throw v => throw (Thrown v)
  end.

Fixpoint execAll (cs : list command) : M unit :=
  match cs with
  | [] => ret tt
  | c :: rest => do! exec c in execAll rest
  end.
End Methods.

Section Calls.
(** The function table of the client: the statements a function runs when
    called with a receiver and an event object, and the value it returns. *)
Variable code : nat → context → object → list command * value.

(** [cb.call(ctx, eventObject)], with a budget on the call depth. *)
Fixpoint call (fuel : nat) (cb : callback) (ctx : context) (eventObject : object)
    : M value :=
  match fuel with
  | 0 => λ _, OutOfFuel
  | S fuel =>
      do! record_call {| callee := cb; receiver := ctx; argument := eventObject |} in
      match cb with
      | Fn id =>
          let '(body, result) := code id ctx eventObject in
          do! execAll (call fuel) body in ret result
      | OnetimeCallback _ eventType callback =>
          do! off eventType (Some cb) in
          let! d := get_self in
          call fuel callback (currentContext d) eventObject
      end
  end.

(** Client code at top level. *)
Definition run (fuel : nat) (cs : list command) : M unit :=
  execAll (call fuel) cs.
End Calls.

(** ** Embeddable API: the class returned by [Api()] *)

(** The heap of dispatcher objects; host instances hold a reference. *)
Record world := mkWorld {
  dispatchers : gmap nat EventDispatcher;
  w_allocated : nat;
  w_calls : list call_record
}.

(** The class captures [const { validEventTypes, triggerLastEvent } = this]. *)
Record ApiClass := mkApiClass {
  api_validEventTypes : list rule;
  api_triggerLastEvent : bool
}.

Record Host := mkHost { eventDispatcher : nat }.

Definition Api (this : EventDispatcher) : ApiClass :=
  {| api_validEventTypes := validEventTypes this;
     api_triggerLastEvent := triggerLastEvent this |}.

Definition createInstance (cls : ApiClass) : EventDispatcher :=
  new_EventDispatcher
    (Some {| o_validEventTypes := Some (api_validEventTypes cls);
             o_triggerLastEvent := Some (api_triggerLastEvent cls) |}).

(** [new Class()]: the constructor stores a new dispatcher in a new cell. *)
Definition new_Host (cls : ApiClass) (w : world) : Host * world :=
  let l := fresh (dom (dispatchers w)) in
  ({| eventDispatcher := l |},
   {| dispatchers := <[l := createInstance cls]> (dispatchers w);
      w_allocated := w_allocated w; w_calls := w_calls w |}).

Inductive world_outcome (A : Type) :=
| WReturned (a : A) (w : world)
| WThrew (e : error) (w : world)
| WOutOfFuel
| WDangling.

Arguments WReturned {A} a w.
Arguments WThrew {A} e w.
Arguments WOutOfFuel {A}.
Arguments WDangling {A}.

Definition put_back (l : nat) (w : world) (m : machine) : world :=
  {| dispatchers := <[l := self m]> (dispatchers w);
     w_allocated := allocated m; w_calls := calls m |}.

(** A method of the dispatcher stored at [l]. *)
Definition at_dispatcher {A} (l : nat) (c : M A) (w : world) : world_outcome A :=
  match dispatchers w !! l with
  | None => WDangling
  | Some d =>
      match c {| self := d; allocated := w_allocated w; calls := w_calls w |} with
      | Returned a m => WReturned a (put_back l w m)
      | Threw e m => WThrew e (put_back l w m)
      | OutOfFuel => WOutOfFuel
      end
  end.

Section HostMethods.
Variable invoke : callback → context → object → M value.

Definition host_on (h : Host) (eventType : string) (fn : callback) :=
  at_dispatcher (eventDispatcher h) (on invoke eventType fn None).

Definition host_off (h : Host) (eventType : string) (fn : option callback) :=
  at_dispatcher (eventDispatcher h) (off eventType fn).

Definition host_one (h : Host) (eventType : string) (fn : callback) :=
  at_dispatcher (eventDispatcher h) (one invoke eventType fn None).

Definition host_trigger (h : Host) (eventTypeOrEventObject : string + EventInterface)
    (args : option object) :=
  at_dispatcher (eventDispatcher h) (trigger invoke eventTypeOrEventObject args).
End HostMethods.

(** ** Vocabulary of the statements *)

(** The event type and the event object that [trigger] works with. *)
Definition eventTypeOf (eventTypeOrEventObject : string + EventInterface) : string :=
  match eventTypeOrEventObject with
  | inr e => type e
  | inl t => t
  end.

Definition eventObjectOf (eventTypeOrEventObject : string + EventInterface)
    (args : option object) : object :=
  match eventTypeOrEventObject with
  | inr e => asObject e
  | inl t => Event t (Some {| properties := Some (default ∅ args) |})
  end.

(** The machine after [this.lastEvents[eventType] = eventObject]. *)
Definition cached (eventType : string) (eventObject : object) (m : machine) : machine :=
  {| self := set_lastEvents (<[eventType := eventObject]>) (self m);
     allocated := allocated m; calls := calls m |}.

(** The machine after further invocations have been logged. *)
Definition logged (entries : list call_record) (m : machine) : machine :=
  {| self := self m; allocated := allocated m; calls := calls m ++ entries |}.

(** The machine after [cb] has joined the bucket of [eventType]. *)
Definition registered (eventType : string) (cb : callback) (m : machine) : machine :=
  {| self := set_callbacks
               (<[eventType := set_add cb (callbacksForEvent eventType (self m))]>) (self m);
     allocated := allocated m; calls := calls m |}.

(** One delivery: every callback of the snapshot is called once, in order,
    with the event object and the context current at that moment, and
    returns; the machine of one call is handed to the next. *)
Inductive delivered (invoke : callback → context → object → M value) (e : object)
    : list callback → machine → list value → machine → Prop :=
| delivered_nil m : delivered invoke e [] m [] m
| delivered_cons cb rest m v m1 vs m2 :
    invoke cb (currentContext (self m)) e m = Returned v m1 →
    delivered invoke e rest m1 vs m2 →
    delivered invoke e (cb :: rest) m (v :: vs) m2.

(** How often [cb] was invoked according to a log. *)
Definition invocations (cb : callback) (log : list call_record) : nat :=
  length (filter (λ c, callee c = cb) log).

(** The machine an outcome ends in. *)
Definition final {A} (o : outcome A) : option machine :=
  match o with
  | Returned _ m | Threw _ m => Some m
  | OutOfFuel => None
  end.

(** Every bucket of the registry has the property [W]. *)
Definition buckets_all (W : list callback → Prop) (d : EventDispatcher) : Prop :=
  ∀ eventType s, callbacks d !! eventType = Some s → W s.



(** An [InvalidEventType] error is justified by the ruleset [R]. *)
Definition justified (R : list rule) (e : error) : Prop :=
  match e with
  | InvalidEventType eventType validEvents =>
      validEvents = R ∧ isValidEvent R eventType = false
  | Thrown _ => True
  end.

(** The invariant of a run that starts with ruleset [R] and log [L], for a
    property [W] of buckets. *)
Definition stable (W : list callback → Prop) (R : list rule) (L : list call_record)
    (m : machine) : Prop :=
  validEventTypes (self m) = R ∧ buckets_all W (self m) ∧ L `prefix_of` calls m.

Definition sound {A} (W : list callback → Prop) (R : list rule) (L : list call_record)
    (o : outcome A) : Prop :=
  match o with
  | Returned _ m => stable W R L m
  | Threw e m => stable W R L m ∧ justified R e
  | OutOfFuel => True
  end.

Definition preserves {A} (W : list callback → Prop) (R : list rule)
    (L : list call_record) (c : M A) : Prop :=
  ∀ m, stable W R L m → sound W R L (c m).


(** The operation raised [InvalidEventType] for the type [t]. *)
Definition raises_InvalidEventType {A} (t : string) (R : list rule) (o : outcome A)
    : Prop :=
  ∃ m', o = Threw (InvalidEventType (Single t) R) m'.

(** The operation raised [InvalidEventType] for [t] and left [m] as it was. *)
Definition rejects {A} (t : string) (m : machine) (o : outcome A) : Prop :=
  o = Threw (InvalidEventType (Single t) (validEventTypes (self m))) m.

(** The outcome of a method of the dispatcher at [l] left every other cell
    of the heap as it was. *)
Definition untouched_elsewhere {A} (l : nat) (w : world) (o : world_outcome A)
    : Prop :=
  match o with
  | WReturned _ w' | WThrew _ w' =>
      ∀ l', l' ≠ l → dispatchers w' !! l' = dispatchers w !! l'
  | WOutOfFuel | WDangling => True
  end.

Section Plain.
Variable code : nat → context → object → list command * value.

(** A plain function runs no statement of its own: it never re-enters the
    dispatcher and never throws. *)
Definition plain (cb : callback) : Prop :=
  match cb with
  | Fn id => ∀ ctx e, (code id ctx e).1 = []
  | OnetimeCallback _ _ _ => False
  end.

(** The value a plain function returns. *)
Definition returns (cb : callback) (ctx : context) (e : object) : value :=
  match cb with
  | Fn id => (code id ctx e).2
  | OnetimeCallback _ _ _ => VUndefined
  end.
End Plain.

(** The entries that [on] logs when it replays the last event to a plain
    callback. *)
Definition replayed (t : string) (cb : callback) (options : option OnOptions)
    (m : machine) : list call_record :=
  if default false (options ≫= opt_triggerLastEvent) || triggerLastEvent (self m) then
    match lastEvents (self m) !! t with
    | Some e => [mkCall cb (currentContext (self m)) e]
    | None => []
    end
  else [].

(** ** Concrete scenarios *)

(** [/click/] and [/^touch.*$/]. *)
Definition click_pattern : RegExp :=
  {| test := λ s, bool_decide (is_Some (String.index 0 "click" s)) |}.

Definition touch_pattern : RegExp := {| test := String.prefix "touch" |}.

(** A function table: function 0 re-triggers [click], every other function
    [n] runs nothing and returns [n]. *)
Definition demo_code (id : nat) (_ : context) (_ : object) : list command * value :=
  match id with
  | 0 => ([Trigger "click" None], VUndefined)
  | _ => ([], VNum (Z.of_nat id))
  end.

Definition fresh_machine (options : option Options) : machine :=
  {| self := new_EventDispatcher options; allocated := 0; calls := [] |}.

Definition click_event : object := {[ "type" := VStr "click" ]}.


(** [new EventDispatcher({ triggerLastEvent: true })] after
    [trigger('click', { x: 1 })]. *)
Definition replaying_machine : machine :=
  cached "click" {[ "type" := VStr "click"; "x" := VNum 1 ]}
    (fresh_machine (Some {| o_validEventTypes := None; o_triggerLastEvent := Some true |})).

(** A dispatcher with two handlers for 'touch', in this order. *)
Definition two_handlers_machine : machine :=
  {| self := set_callbacks (<["touch" := [Fn 1; Fn 2]]>) (new_EventDispatcher None);
     allocated := 0; calls := [] |}.

(** A heap that holds one dispatcher, at address 0. *)
Definition one_dispatcher_world : world :=
  {| dispatchers := {[ 0 := new_EventDispatcher None ]}; w_allocated := 0; w_calls := [] |}.

(** The number of rules of the ruleset that accept a candidate, and the
    number of (candidate, rule) matches of a submission. *)
Definition matchesOf (validEventTypes : list rule) (eventType : string) : nat :=
  length (filter (λ validEvent, isValid validEvent eventType = true) validEventTypes).

Definition totalMatches (validEventTypes : list rule) (types : list string) : nat :=
  sum_list (matchesOf validEventTypes <$> types).

(** ** The array-backed dispatchers of the earlier versions

    The two earlier versions of EventDispatcher.ts keep each bucket in an
    array: [on] pushes, [off] splices.  In the first of them [on] and [off]
    take one type or an array of types ([forEachEventType]); in the second
    they take one type, and [Api()] hands the dispatcher itself to every
    instance.  [on] and [off] call no callback, so they are functions of the
    dispatcher alone. *)
Module Legacy.

Record Dispatcher := mkDispatcher {
  validEvents : list rule;
  callbacks : gmap string (list callback);
  disabled : bool;
  callbackContext : context
}.

(** [constructor(validEventTypes = [/.*/])]. *)
Definition new_Dispatcher (validEventTypes : option (list rule)) : Dispatcher :=
  {| validEvents := default [Pattern matchAnything] validEventTypes;
     callbacks := ∅; disabled := false; callbackContext := This |}.

Inductive result :=
| Done (d : Dispatcher)
| Failed (e : error).

Definition with_callbacks (cbs : gmap string (list callback)) (d : Dispatcher)
    : Dispatcher :=
  {| validEvents := validEvents d; callbacks := cbs; disabled := disabled d;
     callbackContext := callbackContext d |}.

Definition hasCallbacks (eventType : string) (d : Dispatcher) : bool :=
  bool_decide (is_Some (callbacks d !! eventType)).

(** [if (!this.hasCallbacks(type)) this.callbacks[type] = [];
     this.callbacks[type].push(fn)]. *)
Definition push (type : string) (fn : callback) (d : Dispatcher) : Dispatcher :=
  let d1 := if negb (hasCallbacks type d)
            then with_callbacks (<[type := []]> (callbacks d)) d else d in
  with_callbacks
    (<[type := default [] (callbacks d1 !! type) ++ [fn]]> (callbacks d1)) d1.

(** [let i = callbacks.length;
     while (i--) { if (callbacks[i] === fn) callbacks.splice(i, 1) }]:
    the loop at the test, with [i] still to be decremented. *)
Fixpoint spliceLoop (i : nat) (fn : callback) (callbacks : list callback)
    : list callback :=
  match i with
  | 0 => callbacks
  | S i =>
      spliceLoop i fn
        (if decide (callbacks !! i = Some fn) then delete i callbacks else callbacks)
  end.

(** The body of [off] after validation. *)
Definition remove (type : string) (fn : option callback) (d : Dispatcher) : Dispatcher :=
  if negb (hasCallbacks type d) then d
  else match fn with
       | None => with_callbacks (delete type (callbacks d)) d
       | Some fn =>
           let callbacks := default [] (callbacks d !! type) in
           with_callbacks
             (<[type := spliceLoop (length callbacks) fn callbacks]> (Legacy.callbacks d)) d
       end.

Definition validateEventType (eventType : eventTypes) (d : Dispatcher) : option error :=
  if isValidEvent (validEvents d) eventType then None
  else Some (InvalidEventType eventType (validEvents d)).

(** The second version: [on(eventType, fn)] and [off(eventType, fn?)] for one
    type. *)
Definition on (eventType : string) (fn : callback) (d : Dispatcher) : result :=
  match validateEventType (Single eventType) d with
  | Some e => Failed e
  | None => Done (push eventType fn d)
  end.

Definition off (eventType : string) (fn : option callback) (d : Dispatcher) : result :=
  match validateEventType (Single eventType) d with
  | Some e => Failed e
  | None => Done (remove eventType fn d)
  end.

(** The first version: [forEachEventType] validates the whole array, then
    runs the body for each type in turn. *)
Definition forEachEventType (eventType : eventTypes)
    (body : string → Dispatcher → Dispatcher) (d : Dispatcher) : result :=
  let eventTypes := asArray eventType in
  match validateEventType (Many eventTypes) d with
  | Some e => Failed e
  | None => Done (foldl (λ d type, body type d) d eventTypes)
  end.


Definition off_each (eventType : eventTypes) (fn : option callback)
    : Dispatcher → result :=
  forEachEventType eventType (λ type, remove type fn).

(** [Api()] of the second version: [const ed = this], and the constructor of
    the class stores [ed] itself. *)
Record Host := mkHost { eventDispatcher : nat }.

Definition Api (this : nat) : nat := this.

Definition new_Host (ed : nat) (heap : gmap nat Dispatcher) : Host * gmap nat Dispatcher :=
  ({| eventDispatcher := ed |}, heap).

(** A method of a host instance: the method of the dispatcher it refers to,
    written back to the heap; [None] when the reference dangles. *)
Definition host_method (h : Host) (method : Dispatcher → result)
    (heap : gmap nat Dispatcher) : option (error + gmap nat Dispatcher) :=
  d ← heap !! eventDispatcher h;
  Some match method d with
       | Done d' => inr (<[eventDispatcher h := d']> heap)
       | Failed e => inl e
       end.

Definition host_on (h : Host) (eventType : string) (fn : callback) :=
  host_method h (on eventType fn).

Definition host_off (h : Host) (eventType : string) (fn : option callback) :=
  host_method h (off eventType fn).

End Legacy.

(** A function table with callbacks that act on the dispatcher: function 10
    removes function 2 from the bucket of 'touch', function 11 throws,
    function 12 registers function 3 for 'touch'; every other function [n]
    runs nothing and returns [n]. *)
Definition handlers_code (id : nat) (_ : context) (_ : object) : list command * value :=
  match id with
  | 10 => ([Off "touch" (Some (Fn 2))], VUndefined)
  | 11 => ([Throw (VStr "boom")], VUndefined)
  | 12 => ([On "touch" (Fn 3) None], VUndefined)
  | _ => ([], VNum (Z.of_nat id))
  end.

(** A dispatcher with default options whose registry holds one bucket. *)
Definition bucket_machine (t : string) (s : list callback) : machine :=
  {| self := set_callbacks (<[t := s]>) (new_EventDispatcher None);
     allocated := 0; calls := [] |}.

(** Evaluation of a hypothesis at a concrete input. *)
Ltac discharge :=
  first
    [ by vm_compute
    | apply (bool_decide_unpack _); by vm_compute
    | by (repeat constructor; intros ? ?; reflexivity)
    | by (intros ? ?; reflexivity)
    | by (intros ? ?; eexists _, _; reflexivity)
    | by left; intros ? ?; reflexivity ].

(** * Validation *)

Lemma rulesLoop_single (t : string) (R : list rule) :
  rulesLoop 1 t R 0 = if satisfies R t then None else Some 0.
Proof.
  induction R as [|r R IH]; simpl; [done|].
  destruct (isValid r t); simpl; [done | exact IH].
Qed.

(** A single event type passes validation exactly when some rule accepts it. *)
Lemma isValidEvent_Single (R : list rule) (t : string) :
  isValidEvent R (Single t) = satisfies R t.
Proof.
  unfold isValidEvent; simpl. rewrite rulesLoop_single.
  by destruct (satisfies R t).
Qed.

Lemma rulesLoop_count (len : nat) (t : string) (R : list rule) (c : nat) :
  (c < len)%nat →
  match rulesLoop len t R c with
  | None => True
  | Some c' => (c ≤ c' ∧ c' < len ∧ (satisfies R t = true → c < c'))%nat
  end.
Proof.
  revert c. induction R as [|r R IH]; intros c Hc; cbn [rulesLoop].
  - unfold satisfies; cbn [existsb]. repeat split; lia.
  - unfold satisfies; cbn [existsb]. destruct (isValid r t); cbn [orb].
    + destruct (Nat.eqb_spec (S c) len) as [|Hne]; [done|].
      specialize (IH (S c) ltac:(lia)).
      destruct (rulesLoop len t R (S c)); [|done].
      destruct IH as (? & ? & _). repeat split; lia.
    + specialize (IH c Hc). destruct (rulesLoop len t R c); [|done].
      destruct IH as (? & ? & ?). repeat split; auto.
Qed.

Lemma typesLoop_complete (len : nat) (R : list rule) (ts : list string) (c : nat) :
  (c < len)%nat → (len ≤ c + length ts)%nat →
  Forall (λ t, satisfies R t = true) ts →
  typesLoop len ts R c = true.
Proof.
  revert c. induction ts as [|t ts IH]; intros c Hc Hlen Hall; simpl in *; [lia|].
  inversion Hall as [|? ? Ht Hts]; subst.
  pose proof (rulesLoop_count len t R c Hc) as Hr.
  destruct (rulesLoop len t R c) as [c'|]; [|done].
  destruct Hr as (? & ? & Hlt). specialize (Hlt Ht).
  apply IH; [done | lia | done].
Qed.

(** When every member of a non-empty submission satisfies the ruleset, the
    submission is accepted. *)
Lemma isValidEvent_complete (R : list rule) (ts : list string) :
  ts ≠ [] → Forall (λ t, satisfies R t = true) ts →
  isValidEvent R (Many ts) = true.
Proof.
  intros Hne Hall. unfold isValidEvent; simpl.
  apply typesLoop_complete; [|lia|done].
  destruct ts; [done | simpl; lia].
Qed.

(** C1: validation of a multi-type submission counts rule matches, not valid
    members.  Under the ruleset ['click', /click/] the submission
    ['click', 'foo'] is accepted, because 'click' matches two rules and the
    count reaches the length of the submission, although 'foo' satisfies no
    rule. *)
Theorem isValidEvent_counts_matches_not_members :
  isValidEvent [Text "click"; Pattern click_pattern] (Many ["click"; "foo"]) = true
  ∧ satisfies [Text "click"; Pattern click_pattern] "click" = true
  ∧ satisfies [Text "click"; Pattern click_pattern] "foo" = false.
Proof. repeat split; vm_compute; reflexivity. Qed.

(** * Event objects *)

Lemma defineProperties_union (this props : object) :
  defineProperties this props = props ∪ this.
Proof.
  unfold defineProperties.
  apply (map_fold_weak_ind (λ (r : object) (m : object), r = m ∪ this)).
  - by rewrite (left_id_L ∅ (∪)).
  - intros k v m r _ ->. by rewrite insert_union_l.
Qed.

(** The fields of a constructed event: the payload, completed by [type]
    where the payload has no such key. *)
Lemma Event_fields (t : string) (props : object) :
  Event t (Some {| properties := Some props |}) = props ∪ {[ "type" := VStr t ]}.
Proof.
  unfold Event; simpl. rewrite defineProperties_union.
  by rewrite insert_empty.
Qed.

Lemma Event_type (t : string) (props : object) :
  props !! "type" = None →
  Event t (Some {| properties := Some props |}) !! "type" = Some (VStr t).
Proof.
  intros Hnone. rewrite Event_fields, lookup_union_r by done.
  apply lookup_singleton_eq.
Qed.

Lemma Event_payload (t k : string) (props : object) (v : value) :
  props !! k = Some v →
  Event t (Some {| properties := Some props |}) !! k = Some v.
Proof.
  intros Hk. rewrite Event_fields. by apply lookup_union_Some_l.
Qed.

(** C5: a payload with a key [type] overwrites the type of the constructed
    event.  After [on('click', f1)], [trigger('click', {type: 'touch'})]
    delivers to [f1], and caches under 'click', an event object whose [type]
    is 'touch'. *)
Theorem trigger_payload_type_overwrites_event_type :
  ∃ delivered m,
    run demo_code 1 [On "click" (Fn 1) None] (fresh_machine None)
      = Returned tt m
    ∧ trigger (call demo_code 1) (inl "click") (Some {[ "type" := VStr "touch" ]}) m
      = Returned (Some [VNum 1])
          (logged [mkCall (Fn 1) This delivered] (cached "click" delivered m))
    ∧ delivered !! "type" = Some (VStr "touch")
    ∧ lastEvents (self (cached "click" delivered m)) !! "click" = Some delivered.
Proof.
  exists {[ "type" := VStr "touch" ]}. eexists. split; [reflexivity|].
  repeat split; vm_compute; reflexivity.
Qed.

(** * Sets of callbacks *)


Lemma set_delete_NoDup (cb : callback) (s : list callback) :
  NoDup s → NoDup (set_delete cb s).
Proof. apply NoDup_filter. Qed.


Lemma set_add_fresh (cb : callback) (s : list callback) :
  cb ∉ s → set_add cb s = s ++ [cb].
Proof. intros Hin. unfold set_add. by rewrite decide_False. Qed.



Lemma set_delete_not_elem (cb : callback) (s : list callback) :
  cb ∉ set_delete cb s.
Proof. unfold set_delete. rewrite list_elem_of_filter. tauto. Qed.

(** * The invariant of a run *)

Section Invariant.
Variable W : list callback → Prop.
Hypothesis W_nil : W [].
Hypothesis W_add : ∀ cb s, W s → W (set_add cb s).
Hypothesis W_delete : ∀ cb s, W s → W (set_delete cb s).
Variables (R : list rule) (L : list call_record).

Abbreviation stable := (stable W R L).
Abbreviation sound := (sound W R L).
Abbreviation preserves := (preserves W R L).

Lemma sound_bind {A B} (c : M A) (k : A → M B) (m : machine) :
  sound (c m) →
  (∀ a m', c m = Returned a m' → stable m' → sound (k a m')) →
  sound (bind c k m).
Proof.
  intros Hc Hk. unfold bind. destruct (c m) as [a m'| |]; simpl in *; auto.
Qed.

Lemma preserves_bind {A B} (c : M A) (k : A → M B) :
  preserves c → (∀ a, preserves (k a)) → preserves (bind c k).
Proof.
  intros Hc Hk m Hm. apply sound_bind; [by apply Hc|].
  intros a m' _ Hm'. by apply Hk.
Qed.

Lemma preserves_ret {A} (a : A) : preserves (ret a).
Proof. by intros m Hm. Qed.

Lemma preserves_get {A} (k : EventDispatcher → M A) :
  (∀ m, stable m → sound (k (self m) m)) →
  preserves (bind get_self k).
Proof. intros Hk m Hm. by apply Hk. Qed.

Lemma preserves_validateEventType (a : eventTypes) :
  preserves (validateEventType a).
Proof.
  apply preserves_get. intros m Hm.
  destruct (isValidEvent (validEventTypes (self m)) a) eqn:Hv; simpl; [done|].
  split; [done|]. destruct Hm as (<- & _). done.
Qed.

Lemma preserves_set_callbacks (f : gmap string (list callback) → gmap string (list callback)) :
  (∀ cbs : gmap string (list callback),
      (∀ t s, cbs !! t = Some s → W s) → ∀ t s, f cbs !! t = Some s → W s) →
  preserves (modify_self (set_callbacks f)).
Proof.
  intros Hf m (HR & Hwf & HL). repeat split; simpl; [done| |done].
  intros t s. simpl. by apply Hf.
Qed.

Lemma preserves_modify_other (f : EventDispatcher → EventDispatcher) :
  (∀ d, validEventTypes (f d) = validEventTypes d) →
  (∀ d, callbacks (f d) = callbacks d) →
  preserves (modify_self f).
Proof.
  intros HfR Hfc m (HR & Hwf & HL). repeat split; simpl; [by rewrite HfR| |done].
  intros t s. rewrite Hfc. apply Hwf.
Qed.

Lemma preserves_off (t : string) (cb : option callback) :
  preserves (off t cb).
Proof.
  apply preserves_bind; [apply preserves_validateEventType|intros _].
  apply preserves_get. intros m Hm.
  destruct (hasCallbacks t (self m)); simpl; [|done].
  destruct cb as [cb|].
  - apply preserves_set_callbacks; [|done].
    intros cbs Hcbs t' s. destruct (decide (t = t')) as [<-|Hne].
    + rewrite lookup_insert_eq. intros [= <-]. apply W_delete.
      destruct (cbs !! t) eqn:E; simpl; [by eapply Hcbs|apply W_nil].
    + rewrite lookup_insert_ne by done. apply Hcbs.
  - apply preserves_set_callbacks; [|done].
    intros cbs Hcbs t' s Hl. apply lookup_delete_Some in Hl as [_ Hl]. by eapply Hcbs.
Qed.

Lemma preserves_record_call (c : call_record) : preserves (record_call c).
Proof.
  intros m (HR & Hwf & HL). repeat split; simpl; [done..|].
  by apply prefix_app_r.
Qed.

Lemma preserves_new_closure (t : string) (cb : callback) :
  preserves (new_closure t cb).
Proof. by intros m (HR & Hwf & HL). Qed.

Lemma preserves_throw {A} (v : value) : preserves (throw (A := A) (Thrown v)).
Proof. by intros m Hm. Qed.

Lemma preserves_removeLastEventObjectOf (t : string) :
  preserves (removeLastEventObjectOf t).
Proof.
  apply preserves_get. intros m Hm.
  destruct (lastEvents (self m) !! t); [|done].
  apply preserves_bind; [|by intros; apply preserves_ret|done].
  by apply preserves_modify_other.
Qed.

Section WithInvoke.
Variable invoke : callback → context → object → M value.
Hypothesis invoke_preserves : ∀ cb ctx e, preserves (invoke cb ctx e).

Lemma preserves_on (t : string) (cb : callback) (options : option OnOptions) :
  preserves (on invoke t cb options).
Proof.
  apply preserves_bind; [apply preserves_validateEventType|intros _].
  apply preserves_get. intros m Hm. cbv zeta.
  generalize (triggerLastEvent (self m)) (hasCallbacks t (self m)).
  intros tle has. revert m Hm.
  apply preserves_bind.
  { destruct (negb _); [|apply preserves_ret].
    apply preserves_set_callbacks. intros cbs Hcbs t' s.
    destruct (decide (t = t')) as [<-|Hne].
    - rewrite lookup_insert_eq. intros [= <-]. apply W_nil.
    - rewrite lookup_insert_ne by done. apply Hcbs. }
  intros _. apply preserves_bind.
  { apply preserves_set_callbacks. intros cbs Hcbs t' s.
    destruct (decide (t = t')) as [<-|Hne].
    - rewrite lookup_insert_eq. intros [= <-]. apply W_add.
      destruct (cbs !! t) eqn:E; simpl; [by eapply Hcbs|apply W_nil].
    - rewrite lookup_insert_ne by done. apply Hcbs. }
  intros _. apply preserves_bind; [|intros _; apply preserves_ret].
  destruct (_ || _); [|apply preserves_ret].
  apply preserves_get. intros m Hm.
  destruct (getLastEventObjectOf t (self m)); [|done].
  apply preserves_bind; [apply invoke_preserves|intros; apply preserves_ret|done].
Qed.

Lemma preserves_one (t : string) (cb : callback) (options : option OnOptions) :
  preserves (one invoke t cb options).
Proof.
  apply preserves_bind; [apply preserves_validateEventType|intros _].
  apply preserves_bind; [apply preserves_new_closure|intros w].
  apply preserves_on.
Qed.

Lemma preserves_mapCallbacks (snapshot : list callback) (e : object) :
  preserves (mapCallbacks invoke snapshot e).
Proof.
  induction snapshot as [|cb rest IH]; simpl; [apply preserves_ret|].
  apply preserves_get. intros m Hm.
  generalize (currentContext (self m)). intros ctx. revert m Hm.
  apply preserves_bind; [apply invoke_preserves|intros v].
  apply preserves_bind; [apply IH|intros vs]. apply preserves_ret.
Qed.

Lemma preserves_trigger (arg : string + EventInterface) (args : option object) :
  preserves (trigger invoke arg args).
Proof.
  apply preserves_bind; [apply preserves_validateEventType|intros _].
  apply preserves_bind; [by apply preserves_modify_other|intros _].
  apply preserves_get. intros m Hm.
  destruct (_ || _); [done|]. cbv zeta.
  match goal with |- context [callbacksForEvent ?t (self m)] => generalize (callbacksForEvent t (self m)) end. intros snapshot.
  revert m Hm.
  apply preserves_bind; [apply preserves_mapCallbacks|intros vs; apply preserves_ret].
Qed.

Lemma preserves_exec (c : command) : preserves (exec invoke c).
Proof.
  destruct c; simpl;
    try (apply preserves_bind; [|intros ?; apply preserves_ret]);
    auto using preserves_on, preserves_one, preserves_off, preserves_trigger,
      preserves_removeLastEventObjectOf, preserves_throw.
  - by apply preserves_modify_other.
  - by apply preserves_modify_other.
  - by apply preserves_modify_other.
  - apply preserves_set_callbacks. intros cbs _ t s. by rewrite lookup_empty.
Qed.

Lemma preserves_execAll (cs : list command) : preserves (execAll invoke cs).
Proof.
  induction cs as [|c cs IH]; simpl; [apply preserves_ret|].
  apply preserves_bind; [apply preserves_exec|by intros _].
Qed.
End WithInvoke.

Lemma preserves_call (code : nat → context → object → list command * value)
    (fuel : nat) (cb : callback) (ctx : context) (e : object) :
  preserves (call code fuel cb ctx e).
Proof.
  revert cb ctx e. induction fuel as [|fuel IH]; intros cb ctx e; [by intros m Hm|].
  simpl. apply preserves_bind; [apply preserves_record_call|intros _].
  destruct cb as [id|k t inner].
  - destruct (code id ctx e) as [body result].
    apply preserves_bind; [by apply preserves_execAll|intros _; apply preserves_ret].
  - apply preserves_bind; [apply preserves_off|intros _].
    apply preserves_get. intros m Hm. apply IH, Hm.
Qed.
End Invariant.

(** * Equations of the methods *)

Lemma validateEventType_valid (a : eventTypes) (m : machine) :
  isValidEvent (validEventTypes (self m)) a = true →
  validateEventType a m = Returned tt m.
Proof. intros Hv. unfold validateEventType, bind, get_self. by rewrite Hv. Qed.

Lemma validateEventType_invalid (a : eventTypes) (m : machine) :
  isValidEvent (validEventTypes (self m)) a = false →
  validateEventType a m = Threw (InvalidEventType a (validEventTypes (self m))) m.
Proof. intros Hv. unfold validateEventType, bind, get_self. by rewrite Hv. Qed.

Lemma machine_eta (m : machine) :
  {| self := self m; allocated := allocated m; calls := calls m |} = m.
Proof. by destruct m. Qed.

Lemma logged_nil (m : machine) : logged [] m = m.
Proof. unfold logged. rewrite app_nil_r. apply machine_eta. Qed.

Lemma logged_logged (l1 l2 : list call_record) (m : machine) :
  logged l2 (logged l1 m) = logged (l1 ++ l2) m.
Proof. unfold logged; simpl. by rewrite app_assoc. Qed.

(** [off] on a valid type: the three branches of the method. *)
Lemma off_valid (t : string) (cb : option callback) (m : machine) :
  isValidEvent (validEventTypes (self m)) (Single t) = true →
  off t cb m =
    Returned tt
      match callbacks (self m) !! t, cb with
      | None, _ => m
      | Some _, None =>
          {| self := set_callbacks (delete t) (self m);
             allocated := allocated m; calls := calls m |}
      | Some s, Some cb =>
          {| self := set_callbacks (<[t := set_delete cb s]>) (self m);
             allocated := allocated m; calls := calls m |}
      end.
Proof.
  intros Hv. unfold off, bind. rewrite validateEventType_valid by done.
  unfold get_self, hasCallbacks.
  destruct (callbacks (self m) !! t) as [s|] eqn:E; simpl.
  - destruct cb; unfold modify_self, set_callbacks; simpl; [|done]. by rewrite E.
  - done.
Qed.

(** [on] on a valid type: the callback joins the bucket, then the last event
    is replayed when asked for. *)
Lemma on_valid (invoke : callback → context → object → M value)
    (t : string) (cb : callback) (options : option OnOptions) (m : machine) :
  isValidEvent (validEventTypes (self m)) (Single t) = true →
  on invoke t cb options m =
    if default false (options ≫= opt_triggerLastEvent) || triggerLastEvent (self m) then
      match lastEvents (self m) !! t with
      | Some lastEventObject =>
          bind (invoke cb (currentContext (self m)) lastEventObject)
               (λ _, ret {| off_eventType := t; off_callback := cb |})
               (registered t cb m)
      | None => Returned {| off_eventType := t; off_callback := cb |} (registered t cb m)
      end
    else Returned {| off_eventType := t; off_callback := cb |} (registered t cb m).
Proof.
  intros Hv. unfold on, bind at 1. rewrite validateEventType_valid by done.
  unfold bind at 1, get_self at 1. cbv zeta.
  assert (Hreg : ∀ A (k : unit → M A),
    bind (if negb (hasCallbacks t (self m))
          then modify_self (set_callbacks (<[t := []]>)) else ret tt)
      (λ _, bind (modify_self (set_callbacks (λ cbs,
               <[t := set_add cb (default [] (cbs !! t))]> cbs))) k) m
    = k tt (registered t cb m)).
  { intros A k. unfold hasCallbacks, registered, callbacksForEvent, bind, modify_self, ret.
    destruct (callbacks (self m) !! t) as [s|] eqn:E; simpl.
    - unfold set_callbacks; simpl. by rewrite E.
    - unfold set_callbacks; simpl. rewrite lookup_insert_eq. simpl.
      by rewrite insert_insert_eq. }
  rewrite Hreg.
  destruct (default false (options ≫= opt_triggerLastEvent) || triggerLastEvent (self m));
    [|done].
  unfold bind at 1. unfold bind at 1. unfold get_self. simpl.
  unfold getLastEventObjectOf; simpl.
  destruct (lastEvents (self m) !! t); [|done].
  unfold bind, ret. by destruct (invoke _ _ _ _).
Qed.

(** [trigger] on a valid type: the event is cached, then delivered. *)
Lemma trigger_valid (invoke : callback → context → object → M value)
    (arg : string + EventInterface) (args : option object) (m : machine) :
  isValidEvent (validEventTypes (self m)) (Single (eventTypeOf arg)) = true →
  trigger invoke arg args m =
    if disabled (self m) || negb (hasCallbacks (eventTypeOf arg) (self m)) then
      Returned None (cached (eventTypeOf arg) (eventObjectOf arg args) m)
    else
      bind (mapCallbacks invoke (callbacksForEvent (eventTypeOf arg) (self m))
              (eventObjectOf arg args))
           (λ responses, ret (Some responses))
           (cached (eventTypeOf arg) (eventObjectOf arg args) m).
Proof.
  intros Hv. unfold trigger. fold (eventTypeOf arg). fold (eventObjectOf arg args).
  cbv zeta. unfold bind at 1. rewrite validateEventType_valid by done.
  unfold bind at 1, modify_self at 1. unfold bind at 1, get_self at 1.
  fold (cached (eventTypeOf arg) (eventObjectOf arg args) m).
  change (self (cached (eventTypeOf arg) (eventObjectOf arg args) m))
    with (set_lastEvents (<[eventTypeOf arg := eventObjectOf arg args]>) (self m)).
  unfold hasCallbacks, callbacksForEvent; simpl.
  by destruct (disabled (self m) || _).
Qed.



Section PlainCalls.
Variable code : nat → context → object → list command * value.

Lemma call_plain (fuel : nat) (cb : callback) (ctx : context) (e : object) (m : machine) :
  plain code cb →
  call code (S fuel) cb ctx e m =
    Returned (returns code cb ctx e) (logged [mkCall cb ctx e] m).
Proof.
  destruct cb as [id|]; [|done]. simpl. intros Hp. specialize (Hp ctx e).
  unfold bind, record_call. destruct (code id ctx e) as [body result].
  simpl in *. by subst.
Qed.

Lemma mapCallbacks_plain (fuel : nat) (hs : list callback) (e : object) (m : machine) :
  Forall (plain code) hs →
  mapCallbacks (call code (S fuel)) hs e m =
    Returned (map (λ h, returns code h (currentContext (self m)) e) hs)
             (logged (map (λ h, mkCall h (currentContext (self m)) e) hs) m).
Proof.
  revert m. induction hs as [|h hs IH]; intros m Hall.
  - simpl. by rewrite logged_nil.
  - inversion Hall as [|? ? Hh Hhs]; subst.
    cbn [mapCallbacks]. unfold bind at 1, get_self at 1.
    unfold bind at 1. rewrite call_plain by done.
    unfold bind at 1. rewrite IH by done. simpl.
    unfold ret. f_equal. apply logged_logged.
Qed.

Lemma invocations_map (h : callback) (hs : list callback) (ctx : context) (e : object) :
  NoDup hs →
  invocations h (map (λ h, mkCall h ctx e) hs) = if decide (h ∈ hs) then 1 else 0.
Proof.
  unfold invocations. induction hs as [|x hs IH]; intros Hnd; [done|].
  apply NoDup_cons in Hnd as [Hx Hnd]. specialize (IH Hnd).
  cbn [map]. rewrite filter_cons. cbn [callee].
  destruct (decide (x = h)) as [->|Hne].
  - rewrite (decide_True (P := h ∈ h :: hs)) by (apply elem_of_cons; by left).
    cbn [length]. rewrite IH. by rewrite decide_False.
  - rewrite IH. destruct (decide (h ∈ hs)) as [Hin|Hin].
    + rewrite decide_True; [done|]. apply elem_of_cons; by right.
    + rewrite decide_False; [done|]. rewrite elem_of_cons. by intros [->|?].
Qed.

End PlainCalls.


(** * Triggering without delivery *)


Section Trigger.
Variable code : nat → context → object → list command * value.

End Trigger.


(** * The registry *)


Lemma stable_run (W : list callback → Prop)
    (code : nat → context → object → list command * value)
    (fuel : nat) (cs : list command) (m : machine) :
  W [] → (∀ cb s, W s → W (set_add cb s)) → (∀ cb s, W s → W (set_delete cb s)) →
  buckets_all W (self m) →
  sound W (validEventTypes (self m)) (calls m) (run code fuel cs m).
Proof.
  intros W_nil W_add W_delete Hm.
  apply preserves_execAll; [done..| |done].
  intros cb ctx e. by apply preserves_call.
Qed.



(** * Rejection of invalid event types *)

Section Rejection.
Variable code : nat → context → object → list command * value.

Lemma invoke_justified (fuel : nat) (cb : callback) (ctx : context) (e : object) :
  ∀ R L, preserves (λ _, True) R L (call code fuel cb ctx e).
Proof. intros R L. by apply preserves_call. Qed.

Lemma stable_start (m : machine) :
  stable (λ _, True) (validEventTypes (self m)) (calls m) m.
Proof. by repeat split. Qed.

(** An operation that preserves the invariant raises [InvalidEventType] for a
    type only if the type fails the ruleset. *)
Lemma raises_only_invalid {A} (c : M A) (t : string) (m : machine) :
  preserves (λ _, True) (validEventTypes (self m)) (calls m) c →
  raises_InvalidEventType t (validEventTypes (self m)) (c m) →
  isValidEvent (validEventTypes (self m)) (Single t) = false.
Proof.
  intros Hc [m' Hm']. specialize (Hc m (stable_start m)).
  rewrite Hm' in Hc. by destruct Hc as (_ & _ & ?).
Qed.

Lemma rejects_raises {A} (t : string) (m : machine) (o : outcome A) :
  rejects t m o → raises_InvalidEventType t (validEventTypes (self m)) o.
Proof. intros ->. by exists m. Qed.

Lemma on_rejects (invoke : callback → context → object → M value)
    (t : string) (cb : callback) (options : option OnOptions) (m : machine) :
  isValidEvent (validEventTypes (self m)) (Single t) = false →
  rejects t m (on invoke t cb options m).
Proof.
  intros Hv. unfold rejects, on, bind. by rewrite validateEventType_invalid.
Qed.

Lemma one_rejects (invoke : callback → context → object → M value)
    (t : string) (cb : callback) (options : option OnOptions) (m : machine) :
  isValidEvent (validEventTypes (self m)) (Single t) = false →
  rejects t m (one invoke t cb options m).
Proof.
  intros Hv. unfold rejects, one, bind. by rewrite validateEventType_invalid.
Qed.

Lemma off_rejects (t : string) (cb : option callback) (m : machine) :
  isValidEvent (validEventTypes (self m)) (Single t) = false →
  rejects t m (off t cb m).
Proof.
  intros Hv. unfold rejects, off, bind. by rewrite validateEventType_invalid.
Qed.

Lemma trigger_rejects (invoke : callback → context → object → M value)
    (arg : string + EventInterface) (args : option object) (m : machine) :
  isValidEvent (validEventTypes (self m)) (Single (eventTypeOf arg)) = false →
  rejects (eventTypeOf arg) m (trigger invoke arg args m).
Proof.
  intros Hv. unfold rejects, trigger. fold (eventTypeOf arg). cbv zeta.
  unfold bind at 1. by rewrite validateEventType_invalid.
Qed.

(** C7: [on], [one], [off] and [trigger] raise [InvalidEventType] for the
    supplied event type exactly when that type fails the ruleset of the
    dispatcher, whatever the callbacks do; and a rejected call leaves the
    whole machine (registry, last-event cache, enabled flag, context, closure
    allocator, invocation log) exactly as it was. *)
Theorem invalid_event_type_rejected (fuel : nat) (m : machine)
    (arg : string + EventInterface) (args : option object)
    (cb : callback) (cb' : option callback) (options : option OnOptions) :
  let t := eventTypeOf arg in
  let R := validEventTypes (self m) in
  let invalid := satisfies R t = false in
  (raises_InvalidEventType t R (on (call code fuel) t cb options m) ↔ invalid)
  ∧ (raises_InvalidEventType t R (one (call code fuel) t cb options m) ↔ invalid)
  ∧ (raises_InvalidEventType t R (off t cb' m) ↔ invalid)
  ∧ (raises_InvalidEventType t R (trigger (call code fuel) arg args m) ↔ invalid)
  ∧ (invalid →
       rejects t m (on (call code fuel) t cb options m)
       ∧ rejects t m (one (call code fuel) t cb options m)
       ∧ rejects t m (off t cb' m)
       ∧ rejects t m (trigger (call code fuel) arg args m)).
Proof.
  intros t R invalid. subst t R invalid. rewrite <- isValidEvent_Single.
  assert (Hcall : ∀ cb ctx e,
    preserves (λ _, True) (validEventTypes (self m)) (calls m) (call code fuel cb ctx e))
    by (intros; apply invoke_justified).
  split_and!.
  - split; [|by intros; apply rejects_raises, on_rejects].
    apply raises_only_invalid. by apply preserves_on.
  - split; [|by intros; apply rejects_raises, one_rejects].
    apply raises_only_invalid. by apply preserves_one.
  - split; [|by intros; apply rejects_raises, off_rejects].
    apply raises_only_invalid. by apply preserves_off.
  - split; [|by intros; apply rejects_raises, trigger_rejects].
    apply raises_only_invalid. by apply preserves_trigger.
  - intros Hv. split_and!.
    + by apply on_rejects.
    + by apply one_rejects.
    + by apply off_rejects.
    + by apply trigger_rejects.
Qed.
End Rejection.

(** * Registration *)

Section Registration.
Variable code : nat → context → object → list command * value.

Lemma on_plain (fuel : nat) (t : string) (cb : callback) (options : option OnOptions)
    (m : machine) :
  isValidEvent (validEventTypes (self m)) (Single t) = true →
  plain code cb →
  on (call code (S fuel)) t cb options m =
    Returned {| off_eventType := t; off_callback := cb |}
      (logged (replayed t cb options m) (registered t cb m)).
Proof.
  intros Hv Hp. rewrite on_valid by done. unfold replayed.
  destruct (default false (options ≫= opt_triggerLastEvent) || triggerLastEvent (self m));
    [|by rewrite logged_nil].
  destruct (lastEvents (self m) !! t); [|by rewrite logged_nil].
  unfold bind. by rewrite call_plain.
Qed.

Lemma trigger_plain (fuel : nat) (m : machine)
    (arg : string + EventInterface) (args : option object) (hs : list callback) :
  isValidEvent (validEventTypes (self m)) (Single (eventTypeOf arg)) = true →
  disabled (self m) = false →
  callbacks (self m) !! eventTypeOf arg = Some hs →
  Forall (plain code) hs →
  trigger (call code (S fuel)) arg args m
    = Returned
        (Some (map (λ h, returns code h (currentContext (self m)) (eventObjectOf arg args)) hs))
        (logged (map (λ h, mkCall h (currentContext (self m)) (eventObjectOf arg args)) hs)
           (cached (eventTypeOf arg) (eventObjectOf arg args) m)).
Proof.
  intros Hv Hen Hb Hpl.
  rewrite trigger_valid by done. unfold hasCallbacks, callbacksForEvent.
  rewrite Hen, Hb. rewrite bool_decide_eq_true_2 by eauto. cbn [orb negb default].
  unfold bind. by rewrite mapCallbacks_plain.
Qed.

Lemma registered_bucket (t : string) (cb : callback) (m : machine) :
  callbacks (self (registered t cb m)) !! t
    = Some (set_add cb (callbacksForEvent t (self m))).
Proof. simpl. apply lookup_insert_eq. Qed.


(** [on] with nothing to replay registers and returns, whatever the
    callback is. *)
Lemma on_quiet (invoke : callback → context → object → M value)
    (t : string) (cb : callback) (options : option OnOptions) (m : machine) :
  isValidEvent (validEventTypes (self m)) (Single t) = true →
  replayed t cb options m = [] →
  on invoke t cb options m =
    Returned {| off_eventType := t; off_callback := cb |} (registered t cb m).
Proof.
  intros Hv Hq. rewrite on_valid by done. unfold replayed in Hq.
  destruct (default false (options ≫= opt_triggerLastEvent) || triggerLastEvent (self m));
    [|done].
  by destruct (lastEvents (self m) !! t).
Qed.



End Registration.


Section Order.
Variable code : nat → context → object → list command * value.

End Order.

(** The scenarios are reached through the public methods. *)
Example two_handlers_machine_reached :
  run demo_code 1 [On "touch" (Fn 1) None; On "touch" (Fn 2) None] (fresh_machine None)
    = Returned tt two_handlers_machine.
Proof. by vm_compute. Qed.

Example replaying_machine_reached :
  trigger (call demo_code 1) (inl "click") (Some {[ "x" := VNum 1 ]})
    (fresh_machine (Some {| o_validEventTypes := None; o_triggerLastEvent := Some true |}))
    = Returned None replaying_machine.
Proof. by vm_compute. Qed.

(** The scenario of the specification: ruleset ['click', /^touch.*$/]. *)
Example scenario_click_touch :
  let m := fresh_machine
    (Some {| o_validEventTypes := Some [Text "click"; Pattern touch_pattern];
             o_triggerLastEvent := None |}) in
  final (on (call demo_code 1) "touchA" (Fn 1) None m)
    = Some (registered "touchA" (Fn 1) m)
  ∧ on (call demo_code 1) "clickX" (Fn 1) None m
    = Threw (InvalidEventType (Single "clickX") [Text "click"; Pattern touch_pattern]) m
  ∧ trigger (call demo_code 1) (inl "touchA") None (registered "touchA" (Fn 1) m)
    = Returned (Some [VNum 1])
        (logged [mkCall (Fn 1) This {[ "type" := VStr "touchA" ]}]
           (cached "touchA" {[ "type" := VStr "touchA" ]} (registered "touchA" (Fn 1) m))).
Proof. split_and!; by vm_compute. Qed.

(** * Replay of the last event *)

Section Replay.
Variable code : nat → context → object → list command * value.



End Replay.


(** * Embeddable API *)

Lemma at_dispatcher_frame {A} (l : nat) (c : M A) (w : world) :
  untouched_elsewhere l w (at_dispatcher l c w).
Proof.
  unfold at_dispatcher. destruct (dispatchers w !! l) as [d|]; [|done].
  destruct (c _) as [a m|e m|]; simpl; [| |done];
    intros l' Hne; by rewrite lookup_insert_ne.
Qed.

Lemma new_Host_fresh (cls : ApiClass) (w : world) :
  dispatchers w !! eventDispatcher (new_Host cls w).1 = None.
Proof. simpl. apply not_elem_of_dom, is_fresh. Qed.

Lemma new_Host_cell (cls : ApiClass) (w : world) :
  dispatchers (new_Host cls w).2 !! eventDispatcher (new_Host cls w).1
    = Some (createInstance cls).
Proof. simpl. apply lookup_insert_eq. Qed.

Lemma new_Host_frame (cls : ApiClass) (w : world) (l : nat) :
  l ≠ eventDispatcher (new_Host cls w).1 →
  dispatchers (new_Host cls w).2 !! l = dispatchers w !! l.
Proof. intros Hne. simpl. by rewrite lookup_insert_ne. Qed.

(** C10: every instance of the class returned by [Api()] holds a dispatcher
    of its own, stored in a new cell of the heap and constructed from the
    ruleset and the [triggerLastEvent] default of the originating dispatcher,
    with an empty registry and an empty cache; the originating dispatcher is
    left as it was, two instances hold different dispatchers, and [on],
    [one], [off] and [trigger] through an instance change no cell of the heap
    but the dispatcher of that instance. *)
Theorem Api_instances_are_isolated (invoke : callback → context → object → M value)
    (w : world) (l0 : nat) (origin : EventDispatcher) :
  dispatchers w !! l0 = Some origin →
  let cls := Api origin in
  let h1 := (new_Host cls w).1 in
  let w1 := (new_Host cls w).2 in
  let h2 := (new_Host cls w1).1 in
  let w2 := (new_Host cls w1).2 in
  dispatchers w1 !! eventDispatcher h1
    = Some {| validEventTypes := validEventTypes origin; callbacks := ∅;
              lastEvents := ∅; disabled := false; callbackContext := This;
              triggerLastEvent := triggerLastEvent origin |}
  ∧ eventDispatcher h1 ≠ l0
  ∧ eventDispatcher h2 ≠ l0
  ∧ eventDispatcher h1 ≠ eventDispatcher h2
  ∧ dispatchers w2 !! l0 = Some origin
  ∧ dispatchers w2 !! eventDispatcher h1 = dispatchers w1 !! eventDispatcher h1
  ∧ ∀ (h : Host) (w' : world) (t : string) (fn : callback) (fn' : option callback)
      (arg : string + EventInterface) (args : option object),
      untouched_elsewhere (eventDispatcher h) w' (host_on invoke h t fn w')
      ∧ untouched_elsewhere (eventDispatcher h) w' (host_one invoke h t fn w')
      ∧ untouched_elsewhere (eventDispatcher h) w' (host_off h t fn' w')
      ∧ untouched_elsewhere (eventDispatcher h) w' (host_trigger invoke h arg args w').
Proof.
  intros Horigin cls h1 w1 h2 w2.
  assert (H1 : eventDispatcher h1 ≠ l0).
  { intros Heq. pose proof (new_Host_fresh cls w) as Hf.
    fold h1 in Hf. rewrite Heq, Horigin in Hf. discriminate Hf. }
  assert (H12 : eventDispatcher h1 ≠ eventDispatcher h2).
  { intros Heq. pose proof (new_Host_fresh cls w1) as Hf.
    fold h2 in Hf. rewrite <- Heq in Hf. unfold h1, w1 in Hf.
    rewrite new_Host_cell in Hf. discriminate Hf. }
  assert (H2 : eventDispatcher h2 ≠ l0).
  { intros Heq. pose proof (new_Host_fresh cls w1) as Hf.
    fold h2 in Hf. rewrite Heq in Hf. unfold w1 in Hf.
    rewrite new_Host_frame, Horigin in Hf by done. discriminate Hf. }
  split_and!; try done.
  - apply new_Host_cell.
  - unfold w2, w1. by rewrite !new_Host_frame.
  - unfold w2. by rewrite new_Host_frame.
  - intros h w' t fn fn' arg args. split_and!; apply at_dispatcher_frame.
Qed.

Lemma Api_instances_are_isolated_witness :
  dispatchers one_dispatcher_world !! 0 = Some (new_EventDispatcher None)
  ∧ eventDispatcher (new_Host (Api (new_EventDispatcher None)) one_dispatcher_world).1 ≠ 0.
Proof.
  split; [by vm_compute|].
  refine (proj1 (proj2 (Api_instances_are_isolated (call demo_code 1) one_dispatcher_world 0
    (new_EventDispatcher None) _))).
  by vm_compute.
Defined.

(** * One-time callbacks *)

Section Onetime.
Variable code : nat → context → object → list command * value.


Lemma plain_not_onetime (k : nat) (t : string) (h : callback) (hs : list callback) :
  Forall (plain code) hs → OnetimeCallback k t h ∉ hs.
Proof.
  intros Hall Hin. rewrite Forall_forall in Hall. exact (Hall _ Hin).
Qed.

Lemma mapCallbacks_app (invoke : callback → context → object → M value)
    (hs1 hs2 : list callback) (e : object) (m : machine) :
  mapCallbacks invoke (hs1 ++ hs2) e m =
    bind (mapCallbacks invoke hs1 e)
      (λ r1, bind (mapCallbacks invoke hs2 e) (λ r2, ret (r1 ++ r2))) m.
Proof.
  revert m. induction hs1 as [|h hs1 IH]; intros m.
  - cbn [app mapCallbacks]. unfold bind, ret. destruct (mapCallbacks invoke hs2 e m); reflexivity.
  - cbn [app mapCallbacks]. unfold bind, get_self, ret.
    destruct (invoke h _ e m) as [v m1| |]; [|done..].
    rewrite IH. unfold bind, ret.
    destruct (mapCallbacks invoke hs1 e m1) as [r1 m2| |]; [|done..].
    by destruct (mapCallbacks invoke hs2 e m2).
Qed.



Lemma invocations_app (h : callback) (l1 l2 : list call_record) :
  invocations h (l1 ++ l2) = invocations h l1 + invocations h l2.
Proof. unfold invocations. by rewrite filter_app, length_app. Qed.

End Onetime.

(** C6: a trigger that is re-entered before the wrapper of [one] runs calls
    the wrapped callback twice.  After [one('click', f0)] and
    [one('click', f1)], where [f0] triggers 'click' itself, a single
    [trigger('click')] takes the snapshot [w0, w1]; the trigger nested in
    [f0] runs [w1], which deregisters itself and calls [f1]; the outer trigger
    then runs [w1] from its snapshot and calls [f1] again. *)
Theorem one_callback_invoked_twice :
  let outcome :=
    run demo_code 4
      [One "click" (Fn 0) None; One "click" (Fn 1) None; Trigger "click" None]
      (fresh_machine None) in
  calls <$> final outcome =
    Some [ mkCall (OnetimeCallback 0 "click" (Fn 0)) This click_event;
           mkCall (Fn 0) This click_event;
           mkCall (OnetimeCallback 1 "click" (Fn 1)) This click_event;
           mkCall (Fn 1) This click_event;
           mkCall (OnetimeCallback 1 "click" (Fn 1)) This click_event;
           mkCall (Fn 1) This click_event ]
  ∧ invocations (Fn 1) ∘ calls <$> final outcome = Some 2
  ∧ (λ m, callbacks (self m) !! "click") <$> final outcome = Some (Some []).
Proof. split_and!; by vm_compute. Qed.

(** * Validation, continued *)

Lemma rulesLoop_matches (len : nat) (t : string) (R : list rule) (c : nat) :
  c < len →
  rulesLoop len t R c =
    if decide (len ≤ c + matchesOf R t) then None else Some (c + matchesOf R t).
Proof.
  revert c. induction R as [|r R IH]; intros c Hc; cbn [rulesLoop].
  - unfold matchesOf; simpl. rewrite decide_False by lia. f_equal. lia.
  - unfold matchesOf. rewrite filter_cons.
    destruct (isValid r t) eqn:Hr.
    + rewrite (decide_True (P := true = true)) by done. cbn [length].
      fold (matchesOf R t).
      destruct (Nat.eqb_spec (S c) len) as [Heq|Hne].
      * rewrite decide_True by lia. done.
      * rewrite IH by lia. replace (S c + matchesOf R t) with (c + S (matchesOf R t)) by lia.
        done.
    + rewrite (decide_False (P := false = true)) by done. fold (matchesOf R t).
      by apply IH.
Qed.

Lemma typesLoop_matches (len : nat) (R : list rule) (ts : list string) (c : nat) :
  c < len →
  typesLoop len ts R c = bool_decide (len ≤ c + totalMatches R ts).
Proof.
  revert c. induction ts as [|t ts IH]; intros c Hc; cbn [typesLoop].
  - unfold totalMatches; simpl. rewrite bool_decide_eq_false_2; [done|lia].
  - rewrite rulesLoop_matches by done.
    change (totalMatches R (t :: ts)) with (matchesOf R t + totalMatches R ts).
    case_decide as Hle.
    + rewrite bool_decide_eq_true_2; [done|lia].
    + rewrite IH by lia. apply bool_decide_ext. lia.
Qed.

(** X2: what [isValidEvent] computes.  A submission is accepted exactly when it
    is not empty and the number of (member, rule) matches reaches the number
    of its members. *)
Theorem isValidEvent_iff_enough_matches (R : list rule) (eventType : eventTypes) :
  isValidEvent R eventType = true ↔
    asArray eventType ≠ []
    ∧ length (asArray eventType) ≤ totalMatches R (asArray eventType).
Proof.
  unfold isValidEvent. cbv zeta.
  destruct (asArray eventType) as [|t ts] eqn:E.
  - simpl. split; [done|]. by intros [? _].
  - rewrite typesLoop_matches by (simpl; lia).
    rewrite bool_decide_eq_true. split; [|by intros [_ ?]]. intros ?. split; [done|lia].
Qed.

(** X1: a single event type is accepted exactly when some rule of the ruleset
    accepts it: a text rule equal to the type, or a pattern that tests
    positive on it. *)
Theorem single_type_valid_iff_some_rule (R : list rule) (t : string) :
  isValidEvent R (Single t) = true ↔
    Text t ∈ R ∨ ∃ re, Pattern re ∈ R ∧ test re t = true.
Proof.
  rewrite isValidEvent_Single. unfold satisfies.
  rewrite existsb_exists. split.
  - intros (r & Hin%list_elem_of_In & Hr). destruct r as [s|re]; simpl in Hr.
    + left. apply bool_decide_eq_true in Hr. by subst.
    + right. eauto.
  - intros [Hin|(re & Hin & Hre)].
    + exists (Text t). split; [by apply list_elem_of_In|]. simpl. by apply bool_decide_eq_true.
    + exists (Pattern re). split; [by apply list_elem_of_In|done].
Qed.

(** X3: a dispatcher constructed without [validEventTypes] accepts every
    non-empty submission, and a dispatcher constructed with the empty list
    accepts none. *)
Theorem default_ruleset_accepts_all_and_empty_none (eventType : eventTypes) :
  (isValidEvent (validEventTypes (new_EventDispatcher None)) eventType = true
     ↔ asArray eventType ≠ [])
  ∧ isValidEvent
      (validEventTypes (new_EventDispatcher
         (Some {| o_validEventTypes := Some []; o_triggerLastEvent := None |})))
      eventType = false.
Proof.
  split.
  - split.
    + intros Hv. unfold isValidEvent in Hv. cbv zeta in Hv.
      by destruct (asArray eventType).
    + intros Hne. destruct eventType as [t|ts]; simpl in *.
      * done.
      * apply isValidEvent_complete; [done|]. by apply Forall_forall.
  - simpl. unfold isValidEvent. cbv zeta.
    generalize (length (asArray eventType)). intros n.
    induction (asArray eventType) as [|t ts IH]; [done|]. simpl. exact IH.
Qed.

(** * Event objects, continued *)


(** * Client code, step by step *)

Lemma run_cons (code : nat → context → object → list command * value)
    (fuel : nat) (c : command) (cs : list command) (m : machine) :
  run code fuel (c :: cs) m =
    bind (exec (call code fuel) c) (λ _, run code fuel cs) m.
Proof. reflexivity. Qed.

Lemma set_delete_add (cb : callback) (s : list callback) :
  set_delete cb (set_add cb s) = set_delete cb s.
Proof.
  unfold set_add. case_decide; [done|].
  unfold set_delete. rewrite filter_app, filter_cons, decide_False by naive_solver.
  by rewrite filter_nil, app_nil_r.
Qed.

Lemma set_delete_absent (cb : callback) (s : list callback) :
  cb ∉ s → set_delete cb s = s.
Proof.
  intros Hcb. unfold set_delete. induction s as [|x s IH]; [done|].
  apply not_elem_of_cons in Hcb as [Hx Hs].
  rewrite filter_cons, decide_True by done. by rewrite IH.
Qed.

Lemma set_delete_idempotent (cb : callback) (s : list callback) :
  set_delete cb (set_delete cb s) = set_delete cb s.
Proof. apply set_delete_absent, set_delete_not_elem. Qed.

Lemma Forall_set_delete (P : callback → Prop) (cb : callback) (s : list callback) :
  Forall P s → Forall P (set_delete cb s).
Proof.
  rewrite !Forall_forall. intros HP x Hx.
  apply list_elem_of_filter in Hx as [_ Hx]. by apply HP.
Qed.

Section Composition.
Variable code : nat → context → object → list command * value.

(** X7: [off(type, callback)] followed by [trigger(type)].  On an enabled
    dispatcher whose bucket holds distinct plain callbacks, the removed
    callback is not invoked; the others are, once each, in their order. *)
Theorem off_then_trigger_skips_callback (fuel : nat) (m : machine) (t : string)
    (h : callback) (s : list callback) (args : option object) :
  isValidEvent (validEventTypes (self m)) (Single t) = true →
  disabled (self m) = false →
  callbacks (self m) !! t = Some s →
  NoDup s →
  Forall (plain code) s →
  let e := eventObjectOf (inl t) args in
  let ctx := currentContext (self m) in
  let entries := map (λ cb, mkCall cb ctx e) (set_delete h s) in
  ∃ m',
    run code (S fuel) [Off t (Some h); Trigger t args] m = Returned tt m'
    ∧ calls m' = calls m ++ entries
    ∧ callbacks (self m') !! t = Some (set_delete h s)
    ∧ invocations h entries = 0
    ∧ ∀ cb, cb ∈ s → cb ≠ h → invocations cb entries = 1.
Proof.
  intros Hv Hen Hb Hnd Hpl e ctx entries.
  rewrite run_cons. cbn [exec]. unfold bind at 1. rewrite off_valid by done. rewrite Hb.
  set (m1 := {| self := set_callbacks _ (self m) |}).
  rewrite run_cons. cbn [exec]. cbv [bind ret].
  rewrite (trigger_plain code fuel m1 (inl t) args (set_delete h s));
    [|done|done|simpl; apply lookup_insert_eq|by apply Forall_set_delete].
  eexists. split; [reflexivity|]. split_and!.
  - done.
  - simpl. apply lookup_insert_eq.
  - unfold entries. rewrite invocations_map by by apply set_delete_NoDup.
    rewrite decide_False; [done|]. apply set_delete_not_elem.
  - intros cb Hin Hne. unfold entries. rewrite invocations_map by by apply set_delete_NoDup.
    rewrite decide_True; [done|]. unfold set_delete. by apply list_elem_of_filter.
Qed.

End Composition.

Section Composition2.
Variable code : nat → context → object → list command * value.


(** X9: [disable()] suppresses delivery and nothing else, and [enable()]
    restores it.  A trigger on the disabled dispatcher invokes nothing and
    still caches its event; after [enable()] the next trigger delivers to
    the registered plain callbacks; the registry is never touched. *)
Theorem disable_suppresses_enable_restores (fuel : nat) (m : machine) (t : string)
    (hs : list callback) (args1 args2 : option object) :
  isValidEvent (validEventTypes (self m)) (Single t) = true →
  callbacks (self m) !! t = Some hs →
  Forall (plain code) hs →
  let e1 := eventObjectOf (inl t) args1 in
  let e2 := eventObjectOf (inl t) args2 in
  let ctx := currentContext (self m) in
  (∃ m1, run code (S fuel) [Disable; Trigger t args1] m = Returned tt m1
     ∧ calls m1 = calls m
     ∧ lastEvents (self m1) !! t = Some e1
     ∧ callbacks (self m1) = callbacks (self m)
     ∧ disabled (self m1) = true)
  ∧ (∃ m2, run code (S fuel) [Disable; Trigger t args1; Enable; Trigger t args2] m
             = Returned tt m2
     ∧ calls m2 = calls m ++ map (λ h, mkCall h ctx e2) hs
     ∧ lastEvents (self m2) !! t = Some e2
     ∧ callbacks (self m2) = callbacks (self m)
     ∧ disabled (self m2) = false).
Proof.
  intros Hv Hb Hpl e1 e2 ctx.
  assert (Hdis : ∀ cs, run code (S fuel) (Disable :: Trigger t args1 :: cs) m =
    run code (S fuel) cs (cached t e1
      {| self := set_disabled true (self m); allocated := allocated m; calls := calls m |})).
  { intros cs. rewrite run_cons. cbn [exec]. unfold bind at 1, disable, modify_self.
    rewrite run_cons. cbn [exec]. unfold bind at 1. unfold bind at 1.
    by rewrite trigger_valid by done. }
  split.
  - rewrite Hdis. eexists. split; [reflexivity|]. split_and!; try done.
    simpl. apply lookup_insert_eq.
  - rewrite Hdis. rewrite run_cons. cbn [exec]. unfold bind at 1, enable, modify_self.
    set (m1 := {| self := set_disabled false _ |}).
    rewrite run_cons. cbn [exec]. cbv [bind ret].
    rewrite (trigger_plain code fuel m1 (inl t) args2 hs) by done.
    eexists. split; [reflexivity|]. split_and!; try done.
    simpl. apply lookup_insert_eq.
Qed.



(** X12: [setCallbackContext] decides the receiver of every later invocation:
    a trigger calls the plain callbacks of the bucket with the new context,
    and [on] replays the last event with it. *)
Theorem setCallbackContext_sets_receiver (fuel : nat) (m : machine) (t : string)
    (c : context) (hs : list callback) (args : option object) (h : callback)
    (e0 : object) :
  isValidEvent (validEventTypes (self m)) (Single t) = true →
  disabled (self m) = false →
  callbacks (self m) !! t = Some hs →
  Forall (plain code) hs →
  plain code h →
  lastEvents (self m) !! t = Some e0 →
  let e := eventObjectOf (inl t) args in
  (∃ m', run code (S fuel) [SetCallbackContext c; Trigger t args] m = Returned tt m'
     ∧ calls m' = calls m ++ map (λ cb, mkCall cb c e) hs)
  ∧ (∃ m', run code (S fuel)
             [SetCallbackContext c;
              On t h (Some {| opt_triggerLastEvent := Some true |})] m
           = Returned tt m'
     ∧ calls m' = calls m ++ [mkCall h c e0]).
Proof.
  intros Hv Hen Hb Hpl Hh He0 e.
  set (m1 := {| self := set_callbackContext c (self m); allocated := allocated m;
                calls := calls m |}).
  split.
  - rewrite run_cons. cbn [exec]. unfold bind at 1, setCallbackContext, modify_self.
    fold m1. rewrite run_cons. cbn [exec]. cbv [bind ret].
    rewrite (trigger_plain code fuel m1 (inl t) args hs) by done.
    eexists. split; [reflexivity|]. done.
  - rewrite run_cons. cbn [exec]. unfold bind at 1, setCallbackContext, modify_self.
    fold m1. rewrite run_cons. cbn [exec]. cbv [bind ret].
    rewrite (on_plain code fuel t h _ m1) by done.
    eexists. split; [reflexivity|]. unfold replayed. simpl. by rewrite He0.
Qed.
End Composition2.

Section Delivery.
Variable code : nat → context → object → list command * value.

Lemma call_Fn (fuel id : nat) (ctx : context) (e : object) (m : machine) :
  call code (S fuel) (Fn id) ctx e m =
    bind (record_call (mkCall (Fn id) ctx e))
      (λ _, bind (execAll (call code fuel) (code id ctx e).1)
                 (λ _, ret (code id ctx e).2)) m.
Proof. cbn [call]. by destruct (code id ctx e). Qed.

Lemma mapCallbacks_cons (invoke : callback → context → object → M value)
    (cb : callback) (rest : list callback) (e : object) (m : machine) :
  mapCallbacks invoke (cb :: rest) e m =
    match invoke cb (currentContext (self m)) e m with
    | Returned v m1 =>
        match mapCallbacks invoke rest e m1 with
        | Returned vs m2 => Returned (v :: vs) m2
        | Threw err m2 => Threw err m2
        | OutOfFuel => OutOfFuel
        end
    | Threw err m1 => Threw err m1
    | OutOfFuel => OutOfFuel
    end.
Proof. reflexivity. Qed.

Lemma trigger_delivering (invoke : callback → context → object → M value)
    (t : string) (args : option object) (hs : list callback) (m : machine) :
  isValidEvent (validEventTypes (self m)) (Single t) = true →
  disabled (self m) = false →
  callbacks (self m) !! t = Some hs →
  trigger invoke (inl t) args m =
    match mapCallbacks invoke hs (eventObjectOf (inl t) args)
            (cached t (eventObjectOf (inl t) args) m) with
    | Returned vs m' => Returned (Some vs) m'
    | Threw err m' => Threw err m'
    | OutOfFuel => OutOfFuel
    end.
Proof.
  intros Hv Hen Hb. rewrite trigger_valid by done. unfold hasCallbacks, callbacksForEvent.
  cbn [eventTypeOf]. rewrite Hen, Hb. by rewrite bool_decide_eq_true_2 by eauto.
Qed.

Lemma mapCallbacks_after_plain (fuel : nat)
    (pre rest : list callback) (e : object) (m : machine) :
  Forall (plain code) pre →
  mapCallbacks (call code (S fuel)) (pre ++ rest) e m =
    match mapCallbacks (call code (S fuel)) rest e
            (logged (map (λ h, mkCall h (currentContext (self m)) e) pre) m) with
    | Returned vs m' =>
        Returned (map (λ h, returns code h (currentContext (self m)) e) pre ++ vs) m'
    | Threw err m' => Threw err m'
    | OutOfFuel => OutOfFuel
    end.
Proof.
  intros Hpre. rewrite mapCallbacks_app. unfold bind at 1.
  by rewrite mapCallbacks_plain.
Qed.

(** X13: [trigger] delivers to the snapshot of the bucket taken before the
    first callback runs.  When a callback of the bucket removes a callback
    that comes after it, the removed callback is still invoked by the
    delivery in flight, and is gone from the bucket afterwards. *)
Theorem trigger_delivers_to_snapshot (fuel f : nat) (m : machine) (t : string)
    (pre post : list callback) (h2 : callback) (v : value) (args : option object) :
  isValidEvent (validEventTypes (self m)) (Single t) = true →
  disabled (self m) = false →
  callbacks (self m) !! t = Some (pre ++ Fn f :: post) →
  (∀ ctx e, code f ctx e = ([Off t (Some h2)], v)) →
  Forall (plain code) pre →
  Forall (plain code) post →
  h2 ∈ post →
  let e := eventObjectOf (inl t) args in
  let ctx := currentContext (self m) in
  let snapshot := pre ++ Fn f :: post in
  ∃ m',
    trigger (call code (S fuel)) (inl t) args m
      = Returned (Some (map (λ cb, returns code cb ctx e) snapshot)) m'
    ∧ calls m' = calls m ++ map (λ cb, mkCall cb ctx e) snapshot
    ∧ mkCall h2 ctx e ∈ calls m'
    ∧ callbacks (self m') !! t = Some (set_delete h2 snapshot)
    ∧ h2 ∉ set_delete h2 snapshot.
Proof.
  intros Hv Hen Hb Hid Hpre Hpost Hh2 e ctx snapshot.
  rewrite (trigger_delivering _ t args _ m Hv Hen Hb). fold e.
  rewrite mapCallbacks_after_plain by done.
  set (m1 := logged _ (cached t e m)).
  rewrite mapCallbacks_cons, call_Fn. rewrite !Hid. cbn [fst snd execAll exec].
  cbv [bind ret record_call]. rewrite off_valid by done. cbn [self].
  change (callbacks (self m1)) with (callbacks (self m)). rewrite Hb.
  set (m2 := {| self := set_callbacks _ (self m1) |}).
  rewrite mapCallbacks_plain by done.
  eexists. split.
  { f_equal. f_equal. unfold snapshot. rewrite map_app. cbn [map returns].
    by rewrite Hid. }
  match goal with |- calls ?M = _ ∧ _ => set (m' := M) end.
  assert (Hcalls : calls m' = calls m ++ map (λ cb, mkCall cb ctx e) snapshot).
  { simpl. unfold snapshot. rewrite map_app. cbn [map]. by rewrite <- !app_assoc. }
  split_and!.
  - done.
  - rewrite Hcalls. apply elem_of_app. right. apply list_elem_of_In.
    apply (in_map (λ cb, mkCall cb ctx e)). apply list_elem_of_In.
    unfold snapshot. apply elem_of_app. right. apply elem_of_cons. by right.
  - simpl. apply lookup_insert_eq.
  - apply set_delete_not_elem.
Qed.

(** X15: a callback that throws aborts the delivery.  [trigger] ends in the
    thrown value, the callbacks after the throwing one are not invoked, and
    the event object stays in the cache. *)
Theorem throwing_callback_aborts_trigger (fuel f : nat) (m : machine) (t : string)
    (pre post : list callback) (thrown : value) (args : option object) :
  isValidEvent (validEventTypes (self m)) (Single t) = true →
  disabled (self m) = false →
  callbacks (self m) !! t = Some (pre ++ Fn f :: post) →
  (∀ ctx e, ∃ rest v, code f ctx e = (Throw thrown :: rest, v)) →
  Forall (plain code) pre →
  let e := eventObjectOf (inl t) args in
  let ctx := currentContext (self m) in
  ∃ m',
    trigger (call code (S fuel)) (inl t) args m = Threw (Thrown thrown) m'
    ∧ calls m' = calls m ++ map (λ cb, mkCall cb ctx e) (pre ++ [Fn f])
    ∧ lastEvents (self m') !! t = Some e
    ∧ callbacks (self m') = callbacks (self m).
Proof.
  intros Hv Hen Hb Hid Hpre e ctx.
  rewrite (trigger_delivering _ t args _ m Hv Hen Hb). fold e.
  rewrite mapCallbacks_after_plain by done.
  set (m1 := logged _ (cached t e m)).
  rewrite mapCallbacks_cons, call_Fn.
  destruct (Hid (currentContext (self m1)) e) as (rest & v & ->).
  cbn [fst snd execAll exec]. cbv [bind ret record_call throw].
  eexists. split; [reflexivity|]. split_and!; try done.
  - simpl. rewrite map_app. cbn [map]. by rewrite <- app_assoc.
  - simpl. apply lookup_insert_eq.
Qed.


(** X19: what no client code can do.  Whatever the statements and the callbacks
    are, and however the run ends, the ruleset of the dispatcher is the one it
    started with, the invocation log has only grown, and an
    [InvalidEventType] error that comes out of the run names a submission
    that the ruleset rejects. *)
Theorem client_code_keeps_ruleset_and_log (fuel : nat) (cs : list command) (m : machine) :
  match run code fuel cs m with
  | Returned _ m' =>
      validEventTypes (self m') = validEventTypes (self m)
      ∧ calls m `prefix_of` calls m'
  | Threw e m' =>
      validEventTypes (self m') = validEventTypes (self m)
      ∧ calls m `prefix_of` calls m'
      ∧ ∀ eventType R, e = InvalidEventType eventType R →
          R = validEventTypes (self m) ∧ isValidEvent R eventType = false
  | OutOfFuel => True
  end.
Proof.
  pose proof (stable_run (λ _, True) code fuel cs m I (λ _ _ _, I) (λ _ _ _, I)) as Hs.
  specialize (Hs ltac:(by intros ? ? ?)).
  destruct (run code fuel cs m) as [[] m'|err m'|]; simpl in Hs; [| |done].
  - destruct Hs as (? & _ & ?). done.
  - destruct Hs as ((? & _ & ?) & Hj). split_and!; [done..|].
    intros a R ->. simpl in Hj. destruct Hj as [-> ?]. done.
Qed.
End Delivery.

Section Delivery2.
Variable code : nat → context → object → list command * value.

(** X14: a callback registered by a callback during a delivery.  The new
    callback joins the bucket behind the snapshot, so the delivery in flight
    does not reach it; but [trigger] has cached its event before delivering,
    so on a dispatcher whose [triggerLastEvent] default is true the new
    callback is called at once, by [on], with the event in flight. *)
Theorem callback_registered_during_trigger (fuel f : nat) (m : machine) (t : string)
    (pre post : list callback) (h3 : callback) (v : value) (args : option object) :
  isValidEvent (validEventTypes (self m)) (Single t) = true →
  disabled (self m) = false →
  callbacks (self m) !! t = Some (pre ++ Fn f :: post) →
  (∀ ctx e, code f ctx e = ([On t h3 None], v)) →
  Forall (plain code) pre →
  Forall (plain code) post →
  plain code h3 →
  h3 ∉ pre ++ Fn f :: post →
  let e := eventObjectOf (inl t) args in
  let ctx := currentContext (self m) in
  let entry cb := mkCall cb ctx e in
  ∃ m' responses,
    trigger (call code (S (S fuel))) (inl t) args m = Returned (Some responses) m'
    ∧ length responses = length (pre ++ Fn f :: post)
    ∧ calls m' = calls m ++ map entry pre ++ [entry (Fn f)]
                   ++ (if triggerLastEvent (self m) then [entry h3] else [])
                   ++ map entry post
    ∧ callbacks (self m') !! t = Some (pre ++ Fn f :: post ++ [h3]).
Proof.
  intros Hv Hen Hb Hf Hpre Hpost Hh3 Hfresh e ctx entry.
  rewrite (trigger_delivering _ t args _ m Hv Hen Hb). fold e.
  rewrite mapCallbacks_after_plain by done.
  set (m1 := logged _ (cached t e m)).
  rewrite mapCallbacks_cons, call_Fn. rewrite !Hf. cbn [fst snd execAll exec].
  unfold bind at 1, record_call at 1.
  set (m2 := {| self := self m1 |}).
  unfold bind at 1. unfold bind at 1. unfold bind at 1.
  rewrite (on_plain code fuel t h3 None m2) by done.
  cbv [bind ret].
  rewrite mapCallbacks_plain by done.
  eexists _, _. split; [reflexivity|]. split_and!.
  - rewrite length_app, !length_app, !length_map. simpl. by rewrite length_map.
  - simpl. unfold replayed. simpl. rewrite lookup_insert_eq.
    rewrite <- !app_assoc. simpl.
    destruct (triggerLastEvent (self m)); simpl; by rewrite <- ?app_assoc.
  - simpl. rewrite lookup_insert_eq. unfold callbacksForEvent. simpl. rewrite Hb. simpl.
    f_equal. rewrite set_add_fresh by done. by rewrite <- app_assoc.
Qed.

(** X18: a one-time registration that is unsubscribed before the event occurs
    never fires.  After [one(type, h)] with nothing to replay and a call of
    the returned capability, the bucket is as it was before [one], and a
    trigger invokes neither the wrapper nor, through it, [h]. *)
Theorem one_unsubscribed_never_fires (fuel : nat) (m : machine) (t : string)
    (h : callback) (hs : list callback) (options : option OnOptions)
    (args : option object) :
  isValidEvent (validEventTypes (self m)) (Single t) = true →
  disabled (self m) = false →
  callbacks (self m) !! t = Some hs →
  NoDup hs →
  Forall (plain code) hs →
  h ∉ hs →
  replayed t h options m = [] →
  let w := OnetimeCallback (allocated m) t h in
  let e := eventObjectOf (inl t) args in
  let ctx := currentContext (self m) in
  ∃ m1 m2 m3,
    one (call code (S fuel)) t h options m
      = Returned {| off_eventType := t; off_callback := w |} m1
    ∧ exec (call code (S fuel)) (Unsubscribe {| off_eventType := t; off_callback := w |}) m1
      = Returned tt m2
    ∧ callbacks (self m2) = callbacks (self m)
    ∧ trigger (call code (S fuel)) (inl t) args m2
      = Returned (Some (map (λ cb, returns code cb ctx e) hs)) m3
    ∧ calls m3 = calls m ++ map (λ cb, mkCall cb ctx e) hs
    ∧ invocations h (calls m3) = invocations h (calls m)
    ∧ invocations w (calls m3) = invocations w (calls m).
Proof.
  intros Hv Hen Hb Hnd Hpl Hh Hq w e ctx.
  assert (Hw : w ∉ hs) by by apply (plain_not_onetime code).
  unfold one. unfold bind at 1. rewrite validateEventType_valid by done.
  unfold bind at 1, new_closure at 1. fold w.
  set (m0 := {| self := self m; allocated := S (allocated m); calls := calls m |}).
  assert (Hq' : replayed t w options m0 = []).
  { unfold replayed in *. cbn [self m0].
    destruct (_ || _); [|done]. by destruct (lastEvents (self m) !! t). }
  rewrite (on_quiet _ t w options m0) by done.
  eexists _, _, _. split; [reflexivity|].
  cbn [exec off_eventType off_callback]. rewrite off_valid by done.
  rewrite registered_bucket.
  split; [reflexivity|].
  match goal with |- callbacks (self ?M) = _ ∧ _ => set (m2 := M) end.
  assert (Hc2 : callbacks (self m2) = callbacks (self m)).
  { unfold m2. simpl. unfold callbacksForEvent. rewrite Hb. simpl.
    rewrite insert_insert_eq, set_delete_add, set_delete_absent by done.
    by apply insert_id. }
  split; [exact Hc2|].
  rewrite (trigger_plain code fuel m2 (inl t) args hs); [|done|done|by rewrite Hc2|done].
  split; [reflexivity|]. split; [done|].
  cbn [calls logged cached m2 registered m0].
  rewrite !invocations_app, !invocations_map by done.
  by rewrite !decide_False by done.
Qed.
End Delivery2.

(** * The array-backed versions *)

Lemma spliceLoop_prefix (i : nat) (fn : callback) (l : list callback) :
  i ≤ length l →
  Legacy.spliceLoop i fn l = filter (λ c, c ≠ fn) (take i l) ++ drop i l.
Proof.
  revert l. induction i as [|i IH]; intros l Hi; cbn [Legacy.spliceLoop].
  - by rewrite take_0, drop_0.
  - destruct (lookup_lt_is_Some_2 l i ltac:(lia)) as [x Hx].
    rewrite (take_S_r l i x Hx), filter_app, filter_cons, filter_nil.
    rewrite Hx. destruct (decide (x = fn)) as [->|Hne].
    + rewrite (decide_True (P := Some fn = Some fn)) by done.
      rewrite (decide_False (P := fn ≠ fn)) by (by intros ?).
      rewrite IH by (rewrite length_delete by eauto; lia).
      rewrite delete_take_drop.
      rewrite take_app_le by (rewrite length_take; lia).
      rewrite take_take, Nat.min_id.
      rewrite drop_app_ge by (rewrite length_take; lia).
      rewrite length_take, Nat.min_l by lia. rewrite Nat.sub_diag, drop_0.
      by rewrite app_nil_r.
    + rewrite (decide_False (P := Some x = Some fn)) by congruence.
      rewrite (decide_True (P := x ≠ fn)) by done.
      rewrite IH by lia. rewrite (drop_S l x i Hx). by rewrite <- app_assoc.
Qed.

Lemma spliceLoop_filter (fn : callback) (l : list callback) :
  Legacy.spliceLoop (length l) fn l = filter (λ c, c ≠ fn) l.
Proof.
  rewrite spliceLoop_prefix by done.
  by rewrite firstn_all, drop_all, app_nil_r.
Qed.




Lemma legacy_off_valid (d : Legacy.Dispatcher) (t : string) (fn : callback)
    (l : list callback) :
  isValidEvent (Legacy.validEvents d) (Single t) = true →
  Legacy.callbacks d !! t = Some l →
  Legacy.off t (Some fn) d =
    Legacy.Done (Legacy.with_callbacks
                   (<[t := filter (λ c, c ≠ fn) l]> (Legacy.callbacks d)) d).
Proof.
  intros Hv Hl. unfold Legacy.off, Legacy.validateEventType. rewrite Hv.
  unfold Legacy.remove, Legacy.hasCallbacks. rewrite Hl.
  rewrite bool_decide_eq_true_2 by eauto. cbn [negb default].
  by rewrite spliceLoop_filter.
Qed.

(** X20: [off(type, fn)] of the array-backed versions.  The backwards splice
    loop removes every entry of the bucket that is the callback and keeps
    the other entries in their order; the key of the bucket stays, and the
    other buckets are untouched. *)
Theorem legacy_off_removes_every_occurrence (d : Legacy.Dispatcher) (t : string)
    (fn : callback) (l : list callback) :
  isValidEvent (Legacy.validEvents d) (Single t) = true →
  Legacy.callbacks d !! t = Some l →
  ∃ d', Legacy.off t (Some fn) d = Legacy.Done d'
    ∧ Legacy.callbacks d' !! t = Some (filter (λ c, c ≠ fn) l)
    ∧ (fn ∉ filter (λ c, c ≠ fn) l)
    ∧ (∀ c, c ≠ fn → c ∈ l → c ∈ filter (λ c, c ≠ fn) l)
    ∧ (∀ t', t' ≠ t → Legacy.callbacks d' !! t' = Legacy.callbacks d !! t').
Proof.
  intros Hv Hl. rewrite (legacy_off_valid d t fn l) by done.
  eexists. split; [reflexivity|]. split_and!.
  - simpl. apply lookup_insert_eq.
  - rewrite list_elem_of_filter. tauto.
  - intros c Hne Hin. by apply list_elem_of_filter.
  - intros t' Hne. simpl. by rewrite lookup_insert_ne.
Qed.




Lemma legacy_remove_bucket (t t' : string) (fn : callback) (d : Legacy.Dispatcher) :
  default [] (Legacy.callbacks (Legacy.remove t (Some fn) d) !! t') =
    if decide (t = t') then filter (λ c, c ≠ fn) (default [] (Legacy.callbacks d !! t'))
    else default [] (Legacy.callbacks d !! t').
Proof.
  unfold Legacy.remove, Legacy.hasCallbacks.
  destruct (Legacy.callbacks d !! t) as [l|] eqn:Hl; simpl.
  - rewrite spliceLoop_filter. case_decide as Ht.
    + subst t'. by rewrite lookup_insert_eq, Hl.
    + by rewrite lookup_insert_ne.
  - case_decide as Ht; [|done]. subst t'. by rewrite Hl.
Qed.

Lemma legacy_remove_validEvents (t : string) (fn : option callback)
    (d : Legacy.Dispatcher) :
  Legacy.validEvents (Legacy.remove t fn d) = Legacy.validEvents d.
Proof. unfold Legacy.remove. destruct (negb _); [done|]. by destruct fn. Qed.

(** X24: [off] of the first version, for one type or several, with a
    callback.  When the submission passes validation, the callback is gone
    from the bucket of every listed type, the other callbacks of those
    buckets keep their order, and the buckets of the types not listed are
    untouched. *)
Theorem off_each_removes_from_every_type (d : Legacy.Dispatcher) (eventType : eventTypes)
    (fn : callback) :
  isValidEvent (Legacy.validEvents d) (Many (asArray eventType)) = true →
  ∃ d', Legacy.off_each eventType (Some fn) d = Legacy.Done d'
    ∧ Legacy.validEvents d' = Legacy.validEvents d
    ∧ ∀ t, default [] (Legacy.callbacks d' !! t) =
           if decide (t ∈ asArray eventType)
           then filter (λ c, c ≠ fn) (default [] (Legacy.callbacks d !! t))
           else default [] (Legacy.callbacks d !! t).
Proof.
  intros Hv. unfold Legacy.off_each, Legacy.forEachEventType, Legacy.validateEventType.
  cbv zeta. rewrite Hv. eexists. split; [reflexivity|].
  clear Hv. generalize (asArray eventType). intros ts. revert d.
  induction ts as [|t0 ts IH]; intros d.
  - split; [done|]. intros t. rewrite decide_False; [done|]. apply not_elem_of_nil.
  - cbn [foldl]. destruct (IH (Legacy.remove t0 (Some fn) d)) as [HR Hb].
    split; [by rewrite HR, legacy_remove_validEvents|].
    intros t. rewrite Hb, !legacy_remove_bucket.
    destruct (decide (t0 = t)) as [->|Hne].
    + rewrite (decide_True (P := t ∈ t :: ts)) by (apply elem_of_cons; by left).
      case_decide; [|done]. apply set_delete_idempotent.
    + destruct (decide (t ∈ ts)) as [Hin|Hin].
      * rewrite decide_True; [done|]. apply elem_of_cons. by right.
      * rewrite decide_False; [done|]. rewrite elem_of_cons. by intros [->|?].
Qed.


(** * The properties at concrete inputs *)

Lemma off_then_trigger_skips_callback_witness :
  callbacks (self (bucket_machine "touch" [Fn 1; Fn 2])) !! "touch" = Some [Fn 1; Fn 2]
  ∧ ∃ m', run demo_code 1 [Off "touch" (Some (Fn 1)); Trigger "touch" None]
            (bucket_machine "touch" [Fn 1; Fn 2]) = Returned tt m'.
Proof.
  split; [by vm_compute|].
  destruct (off_then_trigger_skips_callback demo_code 0 (bucket_machine "touch" [Fn 1; Fn 2])
              "touch" (Fn 1) [Fn 1; Fn 2] None) as (m' & Hrun & _); [discharge..|].
  by exists m'.
Defined.



Lemma disable_suppresses_enable_restores_witness :
  callbacks (self (bucket_machine "touch" [Fn 1; Fn 2])) !! "touch" = Some [Fn 1; Fn 2]
  ∧ ∃ m1, run demo_code 1 [Disable; Trigger "touch" None]
            (bucket_machine "touch" [Fn 1; Fn 2]) = Returned tt m1
      ∧ calls m1 = [].
Proof.
  split; [by vm_compute|].
  destruct (disable_suppresses_enable_restores demo_code 0
              (bucket_machine "touch" [Fn 1; Fn 2]) "touch" [Fn 1; Fn 2] None None)
    as [(m1 & Hrun & Hcalls & _) _]; [discharge..|].
  by exists m1.
Defined.


Lemma setCallbackContext_sets_receiver_witness :
  lastEvents (self (cached "touch" click_event (bucket_machine "touch" [Fn 1; Fn 2])))
    !! "touch" = Some click_event
  ∧ ∃ m', run demo_code 1 [SetCallbackContext (Obj 7); Trigger "touch" None]
            (cached "touch" click_event (bucket_machine "touch" [Fn 1; Fn 2]))
          = Returned tt m'.
Proof.
  split; [by vm_compute|].
  destruct (setCallbackContext_sets_receiver demo_code 0
              (cached "touch" click_event (bucket_machine "touch" [Fn 1; Fn 2]))
              "touch" (Obj 7) [Fn 1; Fn 2] None (Fn 3) click_event)
    as [(m' & Hrun & _) _]; [discharge..|].
  by exists m'.
Defined.

Lemma trigger_delivers_to_snapshot_witness :
  callbacks (self (bucket_machine "touch" [Fn 1; Fn 10; Fn 2])) !! "touch"
    = Some ([Fn 1] ++ Fn 10 :: [Fn 2])
  ∧ ∃ m', trigger (call handlers_code 1) (inl "touch") None
            (bucket_machine "touch" [Fn 1; Fn 10; Fn 2])
          = Returned (Some [VNum 1; VUndefined; VNum 2]) m'
      ∧ callbacks (self m') !! "touch" = Some [Fn 1; Fn 10].
Proof.
  split; [by vm_compute|].
  destruct (trigger_delivers_to_snapshot handlers_code 0 10
              (bucket_machine "touch" [Fn 1; Fn 10; Fn 2]) "touch" [Fn 1] [Fn 2] (Fn 2)
              VUndefined None) as (m' & Htr & _ & _ & Hb & _); [discharge..|].
  exists m'. split; [exact Htr|]. rewrite Hb. by vm_compute.
Defined.

Lemma throwing_callback_aborts_trigger_witness :
  callbacks (self (bucket_machine "touch" [Fn 1; Fn 11; Fn 2])) !! "touch"
    = Some ([Fn 1] ++ Fn 11 :: [Fn 2])
  ∧ ∃ m', trigger (call handlers_code 1) (inl "touch") None
            (bucket_machine "touch" [Fn 1; Fn 11; Fn 2])
          = Threw (Thrown (VStr "boom")) m'.
Proof.
  split; [by vm_compute|].
  destruct (throwing_callback_aborts_trigger handlers_code 0 11
              (bucket_machine "touch" [Fn 1; Fn 11; Fn 2]) "touch" [Fn 1] [Fn 2]
              (VStr "boom") None) as (m' & Htr & _); [discharge..|].
  by exists m'.
Defined.

Lemma callback_registered_during_trigger_witness :
  callbacks (self (bucket_machine "touch" [Fn 1; Fn 12; Fn 2])) !! "touch"
    = Some ([Fn 1] ++ Fn 12 :: [Fn 2])
  ∧ ∃ m' responses,
      trigger (call handlers_code 2) (inl "touch") None
        (bucket_machine "touch" [Fn 1; Fn 12; Fn 2]) = Returned (Some responses) m'
      ∧ callbacks (self m') !! "touch" = Some [Fn 1; Fn 12; Fn 2; Fn 3].
Proof.
  split; [by vm_compute|].
  destruct (callback_registered_during_trigger handlers_code 0 12
              (bucket_machine "touch" [Fn 1; Fn 12; Fn 2]) "touch" [Fn 1] [Fn 2] (Fn 3)
              VUndefined None) as (m' & rs & Htr & _ & _ & Hb); [discharge..|].
  by exists m', rs.
Defined.


Lemma one_unsubscribed_never_fires_witness :
  callbacks (self (bucket_machine "touch" [Fn 1; Fn 2])) !! "touch" = Some [Fn 1; Fn 2]
  ∧ ∃ m1, one (call demo_code 1) "touch" (Fn 3) None (bucket_machine "touch" [Fn 1; Fn 2])
          = Returned {| off_eventType := "touch";
                        off_callback := OnetimeCallback 0 "touch" (Fn 3) |} m1.
Proof.
  split; [by vm_compute|].
  destruct (one_unsubscribed_never_fires demo_code 0 (bucket_machine "touch" [Fn 1; Fn 2])
              "touch" (Fn 3) [Fn 1; Fn 2] None None) as (m1 & _ & _ & Hone & _);
    [discharge..|].
  by exists m1.
Defined.



Lemma legacy_off_removes_every_occurrence_witness :
  Legacy.callbacks (Legacy.with_callbacks {[ "click" := [Fn 1; Fn 2; Fn 1] ]}
                      (Legacy.new_Dispatcher None)) !! "click" = Some [Fn 1; Fn 2; Fn 1]
  ∧ ∃ d', Legacy.off "click" (Some (Fn 1))
            (Legacy.with_callbacks {[ "click" := [Fn 1; Fn 2; Fn 1] ]}
               (Legacy.new_Dispatcher None)) = Legacy.Done d'
      ∧ Legacy.callbacks d' !! "click" = Some [Fn 2].
Proof.
  split; [by vm_compute|].
  destruct (legacy_off_removes_every_occurrence
              (Legacy.with_callbacks {[ "click" := [Fn 1; Fn 2; Fn 1] ]}
                 (Legacy.new_Dispatcher None)) "click" (Fn 1) [Fn 1; Fn 2; Fn 1])
    as (d' & Hoff & Hb & _); [discharge..|].
  exists d'. split; [exact Hoff|]. rewrite Hb. by vm_compute.
Defined.




Lemma off_each_removes_from_every_type_witness :
  isValidEvent (Legacy.validEvents (Legacy.new_Dispatcher None))
    (Many (asArray (Many ["click"; "touch"]))) = true
  ∧ ∃ d', Legacy.off_each (Many ["click"; "touch"]) (Some (Fn 1)) (Legacy.new_Dispatcher None)
          = Legacy.Done d'.
Proof.
  split; [by vm_compute|].
  destruct (off_each_removes_from_every_type (Legacy.new_Dispatcher None)
              (Many ["click"; "touch"]) (Fn 1)) as (d' & Hoff & _); [discharge|].
  by exists d'.
Defined.
